(** * Parameterized modules and the truncated Polya-Gamma distribution

    A shallow embedding of [pyro/contrib/gp/parameterized.py] and
    [pyro/distributions/polya_gamma.py].

    The host framework (tensors, bijective transforms, the sampling
    primitive) is not part of these two files; it enters the development
    as an interface, the class [Host].  Tensor arithmetic of the
    Polya-Gamma distribution is carried out element-wise in exact real
    arithmetic. *)

From Stdlib Require Import Reals Lra List Ascii String.
From stdpp Require Import gmap strings list fin_maps.
Import ListNotations.

#[local] Set Warnings "-clear-no-such-hyp".

(* ===================================================================== *)
(** * Part I: definitions                                                 *)
(* ===================================================================== *)

(** ** [polya_gamma.py] *)

Module TruncatedPolyaGamma.
Local Open Scope R_scope.

Definition truncation_point : R := 2.5.
Definition num_log_prob_terms : nat := 7.
Definition num_gamma_variates : nat := 8.

(** [torch.arange(start, stop)] with unit step, for [start] 0 or 0.5 and
    an integral [stop]: the values [start + i] for [i < stop]. *)
Definition arange (start : R) (stop : nat) : list R :=
  List.map (fun i => start + INR i) (seq 0 stop).

(** [t.sum(-1)] on the last axis. *)
Definition tsum (t : list R) : R := fold_right Rplus 0 t.

(** [torch.clip(x, max=m)]: only an upper clamp is requested. *)
Definition clip_max (x m : R) : R := Rmin x m.

(** [sample]: the argument [x] is the tensor of Gamma(1,1) variates that
    [Gamma(ones, ones).sample()] returns along the last axis. *)
Definition sample (x : list R) : R :=
  let denom := List.map (fun d => d ^ 2) (arange 0.5 num_gamma_variates) in
  let x := tsum (zip_with Rdiv x denom) in
  clip_max (x * (0.5 / PI ^ 2)) truncation_point.

(** [torch.logsumexp(t, dim=-1)]. *)
Definition logsumexp (t : list R) : R := ln (tsum (List.map exp t)).

(** [torch.index_select(t, -1, idx)]. *)
Definition index_select (t : list R) (idx : list nat) : list R :=
  List.map (fun i => nth i t 0) idx.

(** The slice [l[::2]]; [l[1::2]] is [stride2 (tl l)]. *)
Fixpoint stride2 {A} (l : list A) : list A :=
  match l with
  | [] => []
  | a :: [] => [a]
  | a :: _ :: r => a :: stride2 r
  end.

Definition log_prob (value : R) : R :=
  let all_indices := seq 0 num_log_prob_terms in
  let two_n_plus_one := List.map (fun n => 2 * INR n + 1) all_indices in
  let log_terms :=
    List.map (fun t => ln t - 1.5 * ln value - 0.125 * t ^ 2 / value)
             two_n_plus_one in
  let even_terms := index_select log_terms (stride2 all_indices) in
  let odd_terms := index_select log_terms (stride2 (tl all_indices)) in
  let sum_even := exp (logsumexp even_terms) in
  let sum_odd := exp (logsumexp odd_terms) in
  ln (sum_even - sum_odd) - 0.5 * ln (2 * PI).

(** The [n]-th term of the alternating series, in log space. *)
Definition series_term (v : R) (n : nat) : R :=
  ln (2 * INR n + 1) - 1.5 * ln v - (2 * INR n + 1) ^ 2 / (8 * v).

End TruncatedPolyaGamma.

(** ** [parameterized.py]: the host's data *)

(** [torch.distributions.constraints]: the singleton constraint objects
    the code names, the [independent] wrapper, and any other constraint
    object of the host, told apart by its [repr]. *)
Module constraints.
Inductive constraint : Type :=
| real
| positive
| unit_interval
| real_vector
| lower_cholesky
| boolean
| independent (base_constraint : constraint)
              (reinterpreted_batch_ndims : nat)
| other (repr : string).

#[global] Instance constraint_eq_dec : EqDecision constraint.
Proof. solve_decision. Defined.

(** [type(c).__name__], the class of the constraint object in torch. *)
Definition type_name (c : constraint) : string :=
  match c with
  | real => "_Real"
  | positive => "_GreaterThan"
  | unit_interval => "_Interval"
  | real_vector => "_IndependentConstraint"
  | lower_cholesky => "_LowerCholesky"
  | boolean => "_Boolean"
  | independent _ _ => "_IndependentConstraint"
  | other repr => repr
  end.
End constraints.
Export constraints (constraint).

(** [pyro.distributions]: distribution classes and distribution objects
    over a tensor type [T]. *)
Module dist.
(** A distribution class, the [dist_constructor] of [autoguide]. *)
Inductive constructor : Type :=
| Delta
| Normal
| MultivariateNormal
| Other (repr : string).

#[global] Instance constructor_eq_dec : EqDecision constructor.
Proof. solve_decision. Defined.

(** ["{}".format(dist_constructor)] *)
Definition repr (c : constructor) : string :=
  match c with
  | Delta => "<class 'pyro.distributions.delta.Delta'>"
  | Normal => "<class 'pyro.distributions.torch.Normal'>"
  | MultivariateNormal =>
      "<class 'pyro.distributions.torch.MultivariateNormal'>"
  | Other r => r
  end.

(** A distribution object: [dist.Independent(base_dist, n)], the point
    mass [dist.Delta(v, log_density, event_dim)] ([log_density] is
    [None] when the argument is left at its default), or
    a class [c] called on keyword arguments [kwargs]. *)
Inductive distribution (T : Type) : Type :=
| Independent (base_dist : distribution T)
              (reinterpreted_batch_ndims : nat)
| DeltaAt (v : T) (log_density : option T) (event_dim : nat)
| Call (c : constructor) (kwargs : list (string * T)).
Arguments Independent {T} base_dist reinterpreted_batch_ndims.
Arguments DeltaAt {T} v log_density event_dim.
Arguments Call {T} c kwargs.
End dist.
Export dist (distribution).

(** What an attribute of the module can hold: a [torch.nn.Parameter],
    a [PyroParam], a [PyroSample], or a plain tensor. *)
Inductive attr_value (T : Type) : Type :=
| NNParameter (data : T)
| PyroParam (init_value : T) (init_constraint : constraint)
| PyroSample (prior : distribution T)
| Buffer (data : T).
Arguments NNParameter {T} data.
Arguments PyroParam {T} init_value init_constraint.
Arguments PyroSample {T} prior.
Arguments Buffer {T} data.

(** One call of [pyro.sample(name, fn, infer={"is_auxiliary": aux})]. *)
Record site (T : Type) : Type := Site {
  site_name : string;
  site_fn : distribution T;
  is_auxiliary : bool
}.
Arguments Site {T} site_name site_fn is_auxiliary.
Arguments site_name {T} s.
Arguments site_fn {T} s.
Arguments is_auxiliary {T} s.

(** The object [biject_to(constraint)] returns: [transform(x)],
    [transform.inv(y)] and [transform.inv.log_abs_det_jacobian(y, x)]. *)
Record transform (T : Type) : Type := Transform {
  call : T -> T;
  inv : T -> T;
  inv_log_abs_det_jacobian : T -> T -> T
}.
Arguments Transform {T} call inv inv_log_abs_det_jacobian.
Arguments call {T} t x.
Arguments inv {T} t y.
Arguments inv_log_abs_det_jacobian {T} t y x.

(** The host framework, as far as the two methods call into it. *)
Class Host (tensor : Type) : Type := {
  (** [t.detach()], [t.dim()], [t.shape], [t.new_ones(shape)],
      [eye_like(t, n)], [t.repeat(sizes)], [t.sum()] *)
  detach : tensor -> tensor;
  dim : tensor -> nat;
  shape : tensor -> list nat;
  new_ones : tensor -> list nat -> tensor;
  eye_like : tensor -> nat -> tensor;
  tensor_repeat : tensor -> list nat -> tensor;
  tensor_sum : tensor -> tensor;
  (** [biject_to(c)]; [None] when no transform is registered for [c] *)
  biject_to : constraint -> option (transform tensor);
  (** [c.check(t)]: the tensor lies in the constrained set *)
  check : constraint -> tensor -> Prop;
  (** [d.support] and [d.to_event()] *)
  support : distribution tensor -> constraint;
  to_event : distribution tensor -> distribution tensor;
  (** the tensor the host yields when an attribute holding this value
      is read with [getattr] *)
  value_of : attr_value tensor -> tensor;
  (** the value the sampling primitive returns at a site, given the
      sites recorded before it *)
  draw : list (site tensor) -> site tensor -> tensor
}.

(** ** Exceptions and the state monad *)

(** The exceptions, by their Python class.  [ValueError] and
    [NotImplementedError] carry their message: [autoguide] raises both
    itself, and torch's [biject_to] raises a [NotImplementedError] of its
    own for a constraint without registered transform.  The others come
    out of a host call: [getattr]/[delattr] of an absent attribute, a
    missing dictionary key, [size(-1)] of a tensor without dimensions. *)
Inductive error : Type :=
| ValueError (msg : string)
| NotImplementedError (msg : string)
| AttributeError (name : string)
| KeyError (key : string)
| IndexError.

(** The message of the [NotImplementedError] torch's [biject_to] raises
    for a constraint [c] without registered transform. *)
Definition cannot_transform (c : constraint) : string :=
  "Cannot transform " +:+ constraints.type_name c +:+ " constraints".

Inductive result (A : Type) : Type :=
| Ok (a : A)
| Raise (e : error).
Arguments Ok {A} a.
Arguments Raise {A} e.

(** A computation over a mutable state [S]: an exception leaves the
    mutations made before it in place. *)
Definition M (S A : Type) : Type := S -> result A * S.

#[global] Instance M_ret {S} : MRet (M S) := fun A a s => (Ok a, s).
#[global] Instance M_bind {S} : MBind (M S) := fun A B f m s =>
  match m s with
  | (Ok a, s') => f a s'
  | (Raise e, s') => (Raise e, s')
  end.

Definition raise {S A} (e : error) : M S A := fun s => (Raise e, s).
Definition gets {S A} (f : S -> A) : M S A := fun s => (Ok (f s), s).
Definition modify {S} (f : S -> S) : M S () := fun s => (Ok (), f s).

(** The outcome is a value or an exception that is neither a
    [ValueError] nor a [NotImplementedError]. *)
Definition from_host {A} (r : result A) : Prop :=
  match r with
  | Raise (ValueError _) | Raise (NotImplementedError _) => False
  | _ => True
  end.

(** [for a in l: f(a)] *)
Fixpoint for_each {S A} (f : A -> M S ()) (l : list A) : M S () :=
  match l with
  | [] => mret ()
  | a :: l' => f a ;; for_each f l'
  end.

(** [[f(a) for a in l]] *)
Fixpoint for_list {S A B} (f : A -> M S B) (l : list A) : M S (list B) :=
  match l with
  | [] => mret []
  | a :: l' => b ← f a; bs ← for_list f l'; mret (b :: bs)
  end.

(** ** [parameterized.py]: the class [Parameterized] *)

(** ["{}_{}".format(name, arg)] *)
Definition fmt (name arg : string) : string := name +:+ "_" +:+ arg.

(** [name.split(".")[-1]]: [cur] collects the component being read. *)
Fixpoint split_last (cur s : string) : string :=
  match s with
  | EmptyString => cur
  | String c s' =>
      if Ascii.eqb c "."%char then split_last "" s'
      else split_last (cur +:+ String c "") s'
  end.

Section Parameterized.
Context {tensor : Type} `{!Host tensor}.

(** The instance state: the attributes kept by the superclass, the two
    registries and the mode set up by [__init__], and the cache found
    under [self.__dict__['_pyro_cache']]. *)
Record Parameterized : Type := MkParameterized {
  attrs : gmap string (attr_value tensor);
  _priors : gmap string (distribution tensor);
  _guides : gmap string (dist.constructor * list string);
  _mode : option string;
  _pyro_cache : gmap string tensor
}.

Definition set_attrs f (self : Parameterized) : Parameterized :=
  MkParameterized (f (attrs self)) (_priors self) (_guides self)
                  (_mode self) (_pyro_cache self).
Definition set_priors f (self : Parameterized) : Parameterized :=
  MkParameterized (attrs self) (f (_priors self)) (_guides self)
                  (_mode self) (_pyro_cache self).
Definition set_guides f (self : Parameterized) : Parameterized :=
  MkParameterized (attrs self) (_priors self) (f (_guides self))
                  (_mode self) (_pyro_cache self).
Definition set_cache f (self : Parameterized) : Parameterized :=
  MkParameterized (attrs self) (_priors self) (_guides self)
                  (_mode self) (f (_pyro_cache self)).

(** [__init__] *)
Definition __init__ : Parameterized := MkParameterized ∅ ∅ ∅ None ∅.

(** The mode property: getter and setter. *)
Definition mode (self : Parameterized) : option string := _mode self.
Definition mode_setter (mode : string) (self : Parameterized)
  : Parameterized :=
  MkParameterized (attrs self) (_priors self) (_guides self)
                  (Some mode) (_pyro_cache self).

(** Modelled from the spec: attribute-style access to the parameters,
    which the superclass [PyroModule] implements.  Reading or deleting
    an absent attribute raises; a write stores the value. *)
Definition getattr (name : string) : M Parameterized tensor :=
  fun self =>
    match attrs self !! name with
    | Some a => (Ok (value_of a), self)
    | None => (Raise (AttributeError name), self)
    end.

Definition super_setattr (name : string) (value : attr_value tensor)
  : M Parameterized () :=
  modify (set_attrs (insert name value)).

Definition delattr (name : string) : M Parameterized () :=
  fun self =>
    match attrs self !! name with
    | Some _ => (Ok (), set_attrs (delete name) self)
    | None => (Raise (AttributeError name), self)
    end.

(** Modelled from the spec: the per-pass value cache, a scratch mapping
    from the full name to the value drawn in this evaluation pass;
    [cache.get(name)] is [None] when nothing is stored. *)
Definition cache_get (name : string) : M Parameterized (option tensor) :=
  gets (fun self => _pyro_cache self !! name).
Definition cache_set (name : string) (value : tensor)
  : M Parameterized () :=
  modify (set_cache (insert name value)).

Fixpoint _get_independent_support (dist_instance : distribution tensor)
  : constraint :=
  match dist_instance with
  | dist.Independent base_dist _ => _get_independent_support base_dist
  | _ => support dist_instance
  end.

(** [biject_to(c)], raising when no transform is registered. *)
Definition biject_to_ {S} (c : constraint) : M S (transform tensor) :=
  match biject_to c with
  | Some t => mret t
  | None => raise (NotImplementedError (cannot_transform c))
  end.

(** [d[key]] on a dictionary field of the instance. *)
Definition getitem {V} (d : Parameterized -> gmap string V)
           (key : string) : M Parameterized V :=
  fun self =>
    match d self !! key with
    | Some v => (Ok v, self)
    | None => (Raise (KeyError key), self)
    end.

(** [autoguide].  Its calls of [setattr] store a [Parameter] or a
    [PyroParam], for which [__setattr__] below is the superclass
    method. *)
Definition autoguide (name : string) (dist_constructor : dist.constructor)
  : M Parameterized () :=
  fun self =>
  if decide (_priors self !! name = None) then
    (Raise (ValueError ("There is no prior for parameter: " +:+ name)),
     self)
  else if decide (dist_constructor ∉
                  [dist.Delta; dist.Normal; dist.MultivariateNormal]) then
    (Raise (NotImplementedError ("Unsupported distribution type: "
                                 +:+ dist.repr dist_constructor)), self)
  else
    ((* delete old guide *)
     match _guides self !! name with
     | Some (_, dist_args) =>
         for_each (fun arg => delattr (fmt name arg)) dist_args
     | None => mret ()
     end;;
     p ← getattr name;
     dist_args ←
       match dist_constructor with
       | dist.Delta =>
           prior ← getitem _priors name;
           let support := _get_independent_support prior in
           let p_map :=
             if decide (support = constraints.real)
             then NNParameter (detach p)
             else PyroParam (detach p) support in
           super_setattr (fmt name "map") p_map;;
           mret ["map"]
       | dist.Normal =>
           prior ← getitem _priors name;
           t ← biject_to_ (support prior);
           let loc := detach (inv t p) in
           let scale :=
             PyroParam (new_ones loc (shape loc)) constraints.positive in
           super_setattr (fmt name "loc") (NNParameter loc);;
           super_setattr (fmt name "scale") scale;;
           mret ["loc"; "scale"]
       | dist.MultivariateNormal =>
           prior ← getitem _priors name;
           t ← biject_to_ (support prior);
           let loc := detach (inv t p) in
           match last (shape loc) with
           | None => raise IndexError
           | Some n =>
               let identity := eye_like loc n in
               let scale_tril :=
                 PyroParam
                   (tensor_repeat identity (removelast (shape loc) ++ [1; 1]))
                   constraints.lower_cholesky in
               super_setattr (fmt name "loc") (NNParameter loc);;
               super_setattr (fmt name "scale_tril") scale_tril;;
               mret ["loc"; "scale_tril"]
           end
       | _ => raise (NotImplementedError "")
       end;
     modify (set_guides (insert name (dist_constructor, dist_args)))) self.


(** [__setattr__], for a name that is not among [own_fields]. *)
Definition __setattr__ (name : string) (value : attr_value tensor)
  : M Parameterized () :=
  super_setattr name value;;
  match value with
  | PyroSample prior =>
      modify (set_priors (insert name prior));;
      autoguide name dist.Delta
  | _ => mret ()
  end.

Local Unset Elimination Schemes.
(** Modelled from the spec: the ownership tree [self.modules()] walks.
    A module is an instance of [Parameterized] or of another class, and
    owns its submodules. *)
Inductive module : Type :=
| ParameterizedModule (self : Parameterized)
                      (children : list (string * module))
| PlainModule (children : list (string * module)).
Local Set Elimination Schemes.

(** [set_mode]: every [Parameterized] module of the tree gets [mode]. *)
Fixpoint set_mode (mode : string) (m : module) : module :=
  let sub := List.map (fun c => let '(n, m') := c in (n, set_mode mode m')) in
  match m with
  | ParameterizedModule self children =>
      ParameterizedModule (mode_setter mode self) (sub children)
  | PlainModule children => PlainModule (sub children)
  end.

(** The instance together with the trace of the sampling primitive. *)
Record runtime : Type := MkRuntime {
  self_ : Parameterized;
  trace : list (site tensor)
}.

Definition on_self {A} (m : M Parameterized A) : M runtime A :=
  fun r => let '(a, s) := m (self_ r) in (a, MkRuntime s (trace r)).

(** Modelled from the spec: the sampling primitive
    [pyro.sample(name, fn, infer={"is_auxiliary": aux})], which draws a
    value and records the draw, with its mark, on the execution trace. *)
Definition pyro_sample (name : string) (fn : distribution tensor)
           (aux : bool) : M runtime tensor :=
  fun r =>
    let s := Site name fn aux in
    (Ok (draw (trace r) s), MkRuntime (self_ r) (trace r ++ [s])).

Definition _get_guide (name full_name : string)
  : M runtime (distribution tensor) :=
  '(dist_constructor, dist_args) ← on_self (getitem _guides name);
  if decide (dist_constructor = dist.Delta) then
    p_map ← on_self (getattr (fmt name "map"));
    mret (dist.DeltaAt p_map None (dim p_map))
  else
    (* create guide *)
    dist_args ← on_self (for_list
      (fun arg => v ← getattr (fmt name arg); mret (arg, v)) dist_args);
    let guide := dist.Call dist_constructor dist_args in
    prior ← on_self (getitem _priors name);
    if decide (_get_independent_support prior = constraints.real) then
      mret (to_event guide)
    else
      unconstrained_value ←
        pyro_sample (fmt full_name "latent") (to_event guide) true;
      prior ← on_self (getitem _priors name);
      transform ← biject_to_ (support prior);
      let value := call transform unconstrained_value in
      let log_density :=
        inv_log_abs_det_jacobian transform value unconstrained_value in
      mret (dist.DeltaAt value (Some (tensor_sum log_density)) (dim value)).

Definition _pyro_sample (name : string) (fn : distribution tensor)
  : M runtime tensor :=
  value ← on_self (cache_get name);
  match value with
  | Some value => mret value
  | None =>
      m ← on_self (gets mode);
      fn ← (if decide (m = Some "guide")
            then _get_guide (split_last "" name) name
            else mret fn);
      value ← pyro_sample name fn false;
      on_self (cache_set name value);;
      mret value
  end.

(** *** Vocabulary of the specification *)

(** The suffixes of the sub-parameters [autoguide] creates. *)
Definition suffixes (c : dist.constructor) : list string :=
  match c with
  | dist.Delta => ["map"]
  | dist.Normal => ["loc"; "scale"]
  | dist.MultivariateNormal => ["loc"; "scale_tril"]
  | dist.Other _ => []
  end.

(** The sub-parameters of the guide registered for [name], if any, are
    attributes of the instance, each suffix once. *)
Definition guide_attrs_present (self : Parameterized) (name : string)
  : Prop :=
  match _guides self !! name with
  | Some (_, dist_args) =>
      NoDup dist_args ∧
      Forall (fun arg => is_Some (attrs self !! fmt name arg)) dist_args
  | None => True
  end.

(** The suffixes of the guide registered for [name] (none without a
    guide). *)
Definition old_args (self : Parameterized) (name : string) : list string :=
  match _guides self !! name with
  | Some (_, dist_args) => dist_args
  | None => []
  end.

(** The attributes left when the sub-parameters [dist_args] of [name]
    have been deleted in order. *)
Definition without_guide_attrs (name : string) (dist_args : list string)
           (m : gmap string (attr_value tensor))
  : gmap string (attr_value tensor) :=
  fold_left (fun m arg => delete (fmt name arg) m) dist_args m.

(** The keyword arguments [_get_guide] reads for the suffixes
    [dist_args]. *)
Definition guide_kwargs (self : Parameterized) (name : string)
           (dist_args : list string) : option (list (string * tensor)) :=
  mapM (fun arg => a ← attrs self !! fmt name arg;
                   Some (arg, value_of a)) dist_args.


(** The two registries of [s] are those of [self]. *)
Definition same_registries (self s : Parameterized) : Prop :=
  _priors s = _priors self ∧ _guides s = _guides self.


(** [P] holds of every [Parameterized] instance of a module tree. *)
Fixpoint all_parameterized (P : Parameterized → Prop) (m : module)
  : Prop :=
  let sub :=
    fold_right (fun c acc => let '(_, m') := c in
                             all_parameterized P m' ∧ acc) True in
  match m with
  | ParameterizedModule self children => P self ∧ sub children
  | PlainModule children => sub children
  end.





(** *** Further vocabulary *)





(** [d] wrapped in independent-dimensions adapters, the outermost with
    the first of [ns]. *)
Definition wrap_independent (ns : list nat) (d : distribution tensor)
  : distribution tensor :=
  fold_right (fun n d => dist.Independent d n) d ns.

(** The [Parameterized] instances among [self.modules()], the module
    itself first and then its submodules in order. *)
Fixpoint instances (m : module) : list Parameterized :=
  let sub :=
    fold_right (fun c acc => let '(_, m') := c in instances m' ++ acc) [] in
  match m with
  | ParameterizedModule self children => self :: sub children
  | PlainModule children => sub children
  end.

(** Everything of an instance but its mode. *)
Definition without_mode (self : Parameterized)
  : gmap string (attr_value tensor) * gmap string (distribution tensor) *
    gmap string (dist.constructor * list string) * gmap string tensor :=
  (attrs self, _priors self, _guides self, _pyro_cache self).

(** [s] is [self] up to the attributes named in [keys]. *)
Definition same_outside (keys : list string) (self s : Parameterized)
  : Prop :=
  _priors s = _priors self ∧ _guides s = _guides self ∧
  _mode s = _mode self ∧ _pyro_cache s = _pyro_cache self ∧
  ∀ k, k ∉ keys → attrs s !! k = attrs self !! k.

(** A string without the separator of hierarchical names. *)
Fixpoint no_dot (s : string) : Prop :=
  match s with
  | EmptyString => True
  | String c s' => c ≠ "."%char ∧ no_dot s'
  end.

End Parameterized.

Arguments Parameterized tensor : clear implicits.
Arguments module tensor : clear implicits.
Arguments runtime tensor : clear implicits.

(** ** A host with one-entry tensors

    A tensor is a vector with a single entry, given by that entry; the
    transform registry knows the identity for [constraints.real] and the
    exponential map for [constraints.positive].  The [n]-th draw of the
    sampling primitive returns [n]. *)
Module SingletonHost.
Local Open Scope R_scope.

Definition identity_transform : transform R :=
  Transform (fun x => x) (fun y => y) (fun _ _ => 0).

(** [ExpTransform]: the inverse is [ln], whose log-abs-det-Jacobian at
    [(y, x)] with [y = exp x] is [- x]. *)
Definition exp_transform : transform R :=
  Transform exp ln (fun _ x => - x).

Definition singleton_biject_to (c : constraint) : option (transform R) :=
  match c with
  | constraints.real => Some identity_transform
  | constraints.positive => Some exp_transform
  | _ => None
  end.

Definition singleton_check (c : constraint) (t : R) : Prop :=
  match c with
  | constraints.positive => 0 < t
  | constraints.unit_interval => 0 <= t <= 1
  | _ => True
  end.

Fixpoint singleton_support (d : distribution R) : constraint :=
  match d with
  | dist.Independent base_dist _ => singleton_support base_dist
  | dist.DeltaAt _ _ _ => constraints.real
  | dist.Call (dist.Other r) _ =>
      if decide (r = "LogNormal") then constraints.positive
      else if decide (r = "Bernoulli") then constraints.boolean
      else constraints.real
  | dist.Call _ _ => constraints.real
  end.

Definition singleton_value_of (a : attr_value R) : R :=
  match a with
  | NNParameter data => data
  | PyroParam init_value _ => init_value
  | PyroSample _ => 1
  | Buffer data => data
  end.

#[export] Instance singleton_host : Host R := {|
  detach := fun t => t;
  dim := fun _ => 1%nat;
  shape := fun _ => [1%nat];
  new_ones := fun _ _ => 1;
  eye_like := fun _ _ => 1;
  tensor_repeat := fun t _ => t;
  tensor_sum := fun t => t;
  biject_to := singleton_biject_to;
  check := singleton_check;
  support := singleton_support;
  to_event := fun d => d;
  value_of := singleton_value_of;
  draw := fun t _ => INR (length t)
|}.

Definition LogNormal : distribution R :=
  dist.Call (dist.Other "LogNormal") [("loc", 0); ("scale", 1)].

Definition delta_a : Parameterized R :=
  (__setattr__ "a" (PyroSample LogNormal) __init__).2.
Definition normal_a : Parameterized R :=
  (autoguide "a" dist.Normal delta_a).2.

End SingletonHost.

(** Further states of the one-entry host. *)
Module SingletonStates.
Import SingletonHost.
Local Open Scope R_scope.

Definition Bernoulli : distribution R :=
  dist.Call (dist.Other "Bernoulli") [("probs", 0.5)].

(** [self.z = PyroSample(Bernoulli(0.5))] on a fresh instance. *)
Definition delta_z : Parameterized R :=
  (__setattr__ "z" (PyroSample Bernoulli) __init__).2.

(** A prior for [a] whose attribute is gone. *)
Definition orphan_a : Parameterized R :=
  set_priors (insert "a" LogNormal) __init__.

(** [delta_a] in guide mode. *)
Definition guide_a : Parameterized R := mode_setter "guide" delta_a.

End SingletonStates.

(** ** A host with scalar tensors

    As the one-entry host, but a tensor has no dimension: [t.shape] is
    empty and [t.size(-1)] raises. *)
Module ScalarHost.
Local Open Scope R_scope.

Definition scalar_host : Host R := {|
  detach := fun t => t;
  dim := fun _ => 0%nat;
  shape := fun _ => [];
  new_ones := fun _ _ => 1;
  eye_like := fun _ _ => 1;
  tensor_repeat := fun t _ => t;
  tensor_sum := fun t => t;
  biject_to := SingletonHost.singleton_biject_to;
  check := SingletonHost.singleton_check;
  support := SingletonHost.singleton_support;
  to_event := fun d => d;
  value_of := SingletonHost.singleton_value_of;
  draw := fun t _ => INR (length t)
|}.

(** [self.a = PyroSample(LogNormal(0, 1))] on a fresh instance, then
    [autoguide("a", dist.Normal)], and the state
    [autoguide("a", dist.MultivariateNormal)] leaves when it raises on
    the location without dimension: the [Normal] guide is still
    registered and its sub-parameters are gone. *)
Definition delta_a : Parameterized R :=
  (@__setattr__ R scalar_host "a" (PyroSample SingletonHost.LogNormal)
                __init__).2.
Definition normal_a : Parameterized R :=
  (@autoguide R scalar_host "a" dist.Normal delta_a).2.
End ScalarHost.

(* ===================================================================== *)
(** * Part II: theorems                                                   *)
(* ===================================================================== *)

Module TruncatedPolyaGammaSpec.
Import TruncatedPolyaGamma.
Local Open Scope R_scope.

Lemma tsum_div_nonneg (x d : list R) :
  Forall (fun g => 0 <= g) x -> Forall (fun e => 0 < e) d ->
  0 <= tsum (zip_with Rdiv x d).
Proof.
  intros Hx. revert d. induction Hx as [|g x Hg Hx IH]; intros d Hd.
  - simpl. lra.
  - destruct Hd as [|e d He Hd]; simpl; [lra|].
    specialize (IH d Hd).
    assert (0 <= g / e) by (apply Rle_mult_inv_pos; assumption).
    lra.
Qed.

Lemma denom_pos (n : nat) :
  Forall (fun e => 0 < e) (List.map (fun d => d ^ 2) (arange 0.5 n)).
Proof.
  unfold arange. rewrite Forall_map, Forall_map. apply Forall_forall.
  intros i _. simpl. pose proof (pos_INR i). nra.
Qed.

Lemma scale_pos : 0 < 0.5 / PI ^ 2.
Proof.
  apply Rdiv_lt_0_compat; [lra|]. apply pow_lt. apply PI_RGT_0.
Qed.



Lemma tsum_exp_pos (t : list R) : t <> [] -> 0 < tsum (List.map exp t).
Proof.
  destruct t as [|a t]; [congruence|]. intros _. simpl.
  assert (H : 0 <= tsum (List.map exp t)).
  { induction t as [|b t IH]; simpl; [lra|]. pose proof (exp_pos b). lra. }
  pose proof (exp_pos a). lra.
Qed.

Lemma exp_logsumexp (t : list R) :
  t <> [] -> exp (logsumexp t) = tsum (List.map exp t).
Proof. intros H. unfold logsumexp. apply exp_ln, tsum_exp_pos, H. Qed.

Lemma log_term_eq (v : R) (n : nat) :
  ln (2 * INR n + 1) - 1.5 * ln v - 0.125 * (2 * INR n + 1) ^ 2 / v =
  series_term v n.
Proof.
  unfold series_term, Rdiv. rewrite Rinv_mult.
  generalize ((2 * INR n + 1) ^ 2) (/ v). intros a b.
  replace (0.125 * a * b) with (a * (/ 8 * b)) by lra. reflexivity.
Qed.

(** C10. For positive [v], [log_prob v] is
    [log (even_sum - odd_sum) - 0.5 log (2 pi)], where [even_sum] and
    [odd_sum] are the exponentials of the log-sum-exp of the even- and
    the odd-indexed of the seven terms
    [log (2n+1) - 1.5 log v - (2n+1)^2 / (8 v)], [n = 0..6]; each is the
    plain sum of the exponentiated terms. *)
Theorem log_prob_series (v : R) :
  0 < v ->
  let even_sum := exp (logsumexp (List.map (series_term v) [0; 2; 4; 6]%nat)) in
  let odd_sum := exp (logsumexp (List.map (series_term v) [1; 3; 5]%nat)) in
  log_prob v = ln (even_sum - odd_sum) - 0.5 * ln (2 * PI) /\
  even_sum =
    exp (series_term v 0) + exp (series_term v 2) +
    exp (series_term v 4) + exp (series_term v 6) /\
  odd_sum =
    exp (series_term v 1) + exp (series_term v 3) + exp (series_term v 5).
Proof.
  intros Hv even_sum odd_sum. subst even_sum odd_sum. split; [|split].
  - unfold log_prob, num_log_prob_terms, index_select.
    cbn [seq List.map stride2 tl nth].
    rewrite !log_term_eq. reflexivity.
  - rewrite exp_logsumexp by discriminate. simpl. lra.
  - rewrite exp_logsumexp by discriminate. simpl. lra.
Qed.

Lemma log_prob_series_witness :
  (0 < 1)%R /\
  log_prob 1 =
    ln (exp (logsumexp (List.map (series_term 1) [0; 2; 4; 6]%nat)) -
        exp (logsumexp (List.map (series_term 1) [1; 3; 5]%nat))) -
    0.5 * ln (2 * PI).
Proof.
  split; [lra|]. exact (proj1 (log_prob_series 1 ltac:(lra))).
Defined.


End TruncatedPolyaGammaSpec.

(** ** Strings *)

Lemma append_inj_r (s a b : string) : s +:+ a = s +:+ b → a = b.
Proof.
  induction s as [|c s IH]; simpl; [done|]. intros [= H]. by apply IH.
Qed.

Lemma append_ne_self (s : string) (c : ascii) (t : string) :
  s +:+ String c t ≠ s.
Proof.
  induction s as [|d s IH]; simpl; [done|]. intros [= H]. by apply IH.
Qed.

Lemma fmt_inj (name a b : string) : fmt name a = fmt name b → a = b.
Proof.
  unfold fmt. intros H. apply append_inj_r in H.
  change (String "_" a = String "_" b) in H. by injection H.
Qed.

Lemma fmt_ne_name (name arg : string) : fmt name arg ≠ name.
Proof. unfold fmt. apply append_ne_self. Qed.

(** ** The state monad *)

Section MonadFacts.
Context {S : Type}.

Lemma bind_ok {A B} (m : M S A) (f : A → M S B) s a s' :
  m s = (Ok a, s') → (m ≫= f) s = f a s'.
Proof. unfold mbind, M_bind. by intros ->. Qed.

Lemma bind_raise {A B} (m : M S A) (f : A → M S B) s e s' :
  m s = (Raise e, s') → (m ≫= f) s = (Raise e, s').
Proof. unfold mbind, M_bind. by intros ->. Qed.

(** A property of the state that every step preserves is preserved by
    the sequence, whether it returns or raises. *)
Lemma bind_preserves {A B} (P : S → Prop) (m : M S A) (f : A → M S B) s :
  P (m s).2 → (∀ a s', P s' → P (f a s').2) → P ((m ≫= f) s).2.
Proof.
  unfold mbind, M_bind. destruct (m s) as [[a|e] s']; simpl; auto.
Qed.

Lemma for_each_preserves {A} (P : S → Prop) (f : A → M S ()) l s :
  P s → (∀ a s', P s' → P (f a s').2) → P (for_each f l s).2.
Proof.
  intros Hs Hf. revert s Hs. induction l as [|a l IH]; intros s Hs.
  - done.
  - simpl. apply bind_preserves; auto.
Qed.

Lemma bind_from_host {A B} (m : M S A) (f : A → M S B) s :
  from_host (m s).1 → (∀ a s', from_host (f a s').1) →
  from_host ((m ≫= f) s).1.
Proof.
  unfold mbind, M_bind. destruct (m s) as [[a|e] s']; simpl; auto.
Qed.

Lemma bind_from_host_post {A B} (P : S → Prop) (m : M S A) (f : A → M S B) s :
  from_host (m s).1 → P (m s).2 → (∀ a s', P s' → from_host (f a s').1) →
  from_host ((m ≫= f) s).1.
Proof.
  unfold mbind, M_bind. destruct (m s) as [[a|e] s']; simpl; auto.
Qed.

Lemma for_each_from_host {A} (f : A → M S ()) l s :
  (∀ a s', from_host (f a s').1) → from_host (for_each f l s).1.
Proof.
  intros Hf. revert s. induction l as [|a l IH]; intros s; [done|].
  simpl. apply bind_from_host; auto.
Qed.

Lemma bind_post {A B} (P Q : S → Prop) (m : M S A) (f : A → M S B) s :
  P (m s).2 → (∀ s', P s' → Q s') → (∀ a s', P s' → Q (f a s').2) →
  Q ((m ≫= f) s).2.
Proof.
  unfold mbind, M_bind. destruct (m s) as [[a|e] s']; simpl; auto.
Qed.

Lemma for_list_preserves {A B} (P : S → Prop) (f : A → M S B) l s :
  P s → (∀ a s', P s' → P (f a s').2) → P (for_list f l s).2.
Proof.
  intros Hs Hf. revert s Hs. induction l as [|a l IH]; intros s Hs; [done|].
  simpl. apply bind_preserves; [auto|]. intros b s1 Hs1.
  apply bind_preserves; auto.
Qed.

(** A postcondition on outcome and state through a sequence. *)
Lemma bind_spec {A B} (R : result A → S → Prop) (Q : result B → S → Prop)
      (m : M S A) (f : A → M S B) s :
  R (m s).1 (m s).2 →
  (∀ e s', R (Raise e) s' → Q (Raise e) s') →
  (∀ a s', R (Ok a) s' → Q (f a s').1 (f a s').2) →
  Q ((m ≫= f) s).1 ((m ≫= f) s).2.
Proof.
  unfold mbind, M_bind. destruct (m s) as [[a|e] s']; cbn; auto.
Qed.
End MonadFacts.

(** ** Attributes and the deletion of an old guide *)

Section StoreFacts.
Context {tensor : Type} `{!Host tensor}.
Implicit Types (self : Parameterized tensor) (name arg : string).

Lemma lookup_without_guide_attrs name dist_args
      (m : gmap string (attr_value tensor)) (k : string) :
  without_guide_attrs name dist_args m !! k =
    if decide (k ∈ fmt name <$> dist_args) then None else m !! k.
Proof.
  unfold without_guide_attrs. revert m.
  induction dist_args as [|a l IH]; intros m; [done|].
  rewrite fmap_cons. cbn [fold_left].
  rewrite IH. destruct (decide (k = fmt name a)) as [->|Hne].
  - rewrite lookup_delete_eq, (decide_True (P := _ ∈ _ :: _)).
    + by case_decide.
    + apply elem_of_cons. by left.
  - rewrite lookup_delete_ne by done.
    destruct (decide (k ∈ fmt name <$> l)) as [Hin|Hin].
    + rewrite decide_True; [done|]. apply elem_of_cons. by right.
    + rewrite decide_False; [done|]. intros [?|?]%elem_of_cons; done.
Qed.

(** If the deletion loop returns, it has deleted exactly the suffixed
    attributes. *)
Lemma delete_old_inv name dist_args self self' :
  for_each (fun arg => delattr (fmt name arg)) dist_args self
    = (Ok (), self') →
  self' = set_attrs (without_guide_attrs name dist_args) self.
Proof.
  revert self. induction dist_args as [|a l IH]; intros self; simpl.
  - intros [= <-]. by destruct self.
  - unfold mbind, M_bind, delattr at 1.
    destruct (attrs self !! fmt name a); [|done].
    intros Hl. apply IH in Hl as ->. by destruct self.
Qed.

(** The loop returns when every suffixed attribute is there once. *)
Lemma delete_old_ok name dist_args self :
  NoDup dist_args →
  Forall (fun arg => is_Some (attrs self !! fmt name arg)) dist_args →
  for_each (fun arg => delattr (fmt name arg)) dist_args self
    = (Ok (), set_attrs (without_guide_attrs name dist_args) self).
Proof.
  revert self. induction dist_args as [|a l IH]; intros self Hnd Hall.
  - by destruct self.
  - apply NoDup_cons in Hnd as [Ha Hnd].
    apply Forall_cons in Hall as [[v Hv] Hall].
    simpl. unfold mbind, M_bind, delattr at 1. rewrite Hv.
    rewrite IH; [by destruct self|done|].
    apply Forall_forall. intros arg Harg. simpl.
    rewrite lookup_delete_ne.
    * by apply (proj1 (Forall_forall _ _) Hall).
    * intros Heq. apply fmt_inj in Heq as ->. done.
Qed.

Ltac finish_attrs :=
  split; [done|]; split; [done|]; split;
  [ intros k Hk; rewrite ?lookup_insert; repeat case_decide;
    [eauto ..|exfalso; set_solver]
  | split;
    [ intros k Hk; rewrite !lookup_insert_ne; [done|set_solver ..]
    | first [done | intros _; eexists; split; [done|by eexists]] ] ].

(** What a returning [autoguide] has done: the checks passed, the
    registries hold the new guide, the sub-parameters of the new
    family are attributes, and every other attribute is as the
    deletion of the old guide left it. *)
Lemma autoguide_ok_inv name c self self' :
  autoguide name c self = (Ok (), self') →
  c ∈ [dist.Delta; dist.Normal; dist.MultivariateNormal] ∧
  is_Some (_priors self !! name) ∧
  is_Some (attrs self !! name) ∧
  _priors self' = _priors self ∧
  _guides self' = <[name := (c, suffixes c)]> (_guides self) ∧
  (∀ k, k ∈ fmt name <$> suffixes c → is_Some (attrs self' !! k)) ∧
  (∀ k, k ∉ fmt name <$> suffixes c →
     attrs self' !! k =
     without_guide_attrs name (old_args self name) (attrs self) !! k) ∧
  (c ≠ dist.Delta →
   ∃ prior, _priors self !! name = Some prior ∧
            is_Some (biject_to (support prior))).
Proof.
  unfold autoguide. intros H.
  case_decide as Hp; [done|]. case_decide as Hc; [done|].
  unfold mbind, M_bind in H.
  match type of H with
  | (let (_, _) := ?X in _) = _ => destruct X as [[[]|e] s1] eqn:Hdel
  end; [|done].
  assert (s1 = set_attrs (without_guide_attrs name (old_args self name)) self)
    as ->.
  { unfold old_args. destruct (_guides self !! name) as [[c0 args]|].
    - by apply delete_old_inv.
    - injection Hdel as <-. by destruct self. }
  clear Hdel. unfold getattr in H. cbn [attrs set_attrs] in H.
  destruct (without_guide_attrs _ _ _ !! name) as [a|] eqn:Ha; [|done].
  rewrite lookup_without_guide_attrs, decide_False in Ha; last first.
  { intros (arg & Heq & _)%list_elem_of_fmap. symmetry in Heq.
    by apply fmt_ne_name in Heq. }
  unfold getitem, biject_to_, super_setattr, modify, raise in H.
  cbn [_priors set_attrs] in H.
  destruct (_priors self !! name) as [prior|] eqn:Hprior; [|done].
  split; [done|]. split; [done|]. split; [by eexists|].
  destruct c; cbn in H; rewrite ?Hprior in H; cbn in H.
  - injection H as <-. cbn. finish_attrs.
  - destruct (biject_to (support prior)) as [t|] eqn:Ht; cbn in H; [|done].
    injection H as <-. cbn. finish_attrs.
  - destruct (biject_to (support prior)) as [t|] eqn:Ht; cbn in H; [|done].
    destruct (last (shape _)) as [n|]; cbn in H; [|done].
    injection H as <-. cbn. finish_attrs.
  - done.
Qed.
End StoreFacts.

(** ** [autoguide] *)

Section AutoguideSpec.
Context {tensor : Type} `{!Host tensor}.
Implicit Types (self : Parameterized tensor) (name arg : string).

Lemma getattr_from_host name self : from_host (getattr name self).1.
Proof. unfold getattr. by destruct (attrs self !! name). Qed.
Lemma delattr_from_host name self : from_host (delattr name self).1.
Proof. unfold delattr. by destruct (attrs self !! name). Qed.
Lemma getitem_from_host {V} (d : Parameterized tensor → gmap string V)
      key self :
  from_host (getitem d key self).1.
Proof. unfold getitem. by destruct (d self !! key). Qed.
Lemma biject_to_from_host {S} c (s : S) :
  is_Some (biject_to c) → from_host (biject_to_ c s).1.
Proof. unfold biject_to_. by intros [t ->]. Qed.
Lemma mret_from_host {S A} (a : A) (s : S) : from_host ((mret a : M S A) s).1.
Proof. done. Qed.
Lemma modify_from_host {S} (f : S → S) s : from_host (modify f s).1.
Proof. done. Qed.
Lemma super_setattr_from_host name v self :
  from_host (super_setattr name v self).1.
Proof. done. Qed.

Create HintDb host.
Hint Resolve getattr_from_host delattr_from_host getitem_from_host
  mret_from_host modify_from_host super_setattr_from_host : host.

Ltac from_host_tac :=
  repeat first
    [ apply bind_from_host; [|intros ? ?]
    | apply for_each_from_host; intros ? ?
    | progress auto with host
    | match goal with
      | |- from_host ((match ?x with _ => _ end) _).1 => destruct x
      end ].

Lemma delete_old_guide_ok name self :
  guide_attrs_present self name →
  match _guides self !! name with
  | Some (_, dist_args) =>
      for_each (fun arg => delattr (fmt name arg)) dist_args
  | None => mret ()
  end self
  = (Ok (), set_attrs (without_guide_attrs name (old_args self name)) self).
Proof.
  unfold guide_attrs_present, old_args.
  destruct (_guides self !! name) as [[c0 args]|].
  - intros [Hnd Hall]. by apply delete_old_ok.
  - intros _. by destruct self.
Qed.

Lemma name_not_suffixed name (l : list string) : name ∉ fmt name <$> l.
Proof.
  intros (arg & Heq & _)%list_elem_of_fmap. symmetry in Heq.
  by apply fmt_ne_name in Heq.
Qed.


Lemma autoguide_old_suffixes self self' name c c_old args_old :
  _guides self !! name = Some (c_old, args_old) →
  autoguide name c self = (Ok (), self') →
  _guides self' !! name = Some (c, suffixes c) ∧
  (∀ arg, arg ∈ args_old →
     (is_Some (attrs self' !! fmt name arg) ↔ arg ∈ suffixes c)) ∧
  (∀ k, k ∉ fmt name <$> suffixes c →
     attrs self' !! k =
     without_guide_attrs name args_old (attrs self) !! k).
Proof.
  intros Hg Hrun.
  apply autoguide_ok_inv in Hrun as (_ & _ & _ & _ & Hg' & Hnew & Hrest & _).
  split; [by rewrite Hg', lookup_insert_eq|].
  split; [|by unfold old_args in Hrest; rewrite Hg in Hrest].
  intros arg Harg. split.
  - intros Hsome. destruct (decide (arg ∈ suffixes c)) as [|Hn]; [done|].
    rewrite Hrest, lookup_without_guide_attrs, decide_True in Hsome.
    + by destruct Hsome.
    + unfold old_args. rewrite Hg. by apply list_elem_of_fmap_2.
    + intros (arg' & ->%fmt_inj & ?)%list_elem_of_fmap. done.
  - intros Hin. apply Hnew. by apply list_elem_of_fmap_2.
Qed.

Lemma autoguide_checks self name c :
  (_priors self !! name = None →
   autoguide name c self =
     (Raise (ValueError ("There is no prior for parameter: " +:+ name)),
      self)) ∧
  (is_Some (_priors self !! name) →
   c ∉ [dist.Delta; dist.Normal; dist.MultivariateNormal] →
   autoguide name c self =
     (Raise (NotImplementedError ("Unsupported distribution type: "
                                  +:+ dist.repr c)), self)).
Proof.
  split.
  - intros Hp. unfold autoguide. by rewrite decide_True.
  - intros [prior Hp] Hc. unfold autoguide.
    rewrite decide_False by (by rewrite Hp). by rewrite decide_True.
Qed.
End AutoguideSpec.

(** ** The registries under the operations *)

Section Registries.
Context {tensor : Type} `{!Host tensor}.
Implicit Types (self s : Parameterized tensor) (name arg : string).
Implicit Types (r : runtime tensor).

Lemma getattr_frame self name s :
  same_registries self s → same_registries self (getattr name s).2.
Proof. unfold getattr. by destruct (attrs s !! name). Qed.
Lemma delattr_frame self name s :
  same_registries self s → same_registries self (delattr name s).2.
Proof. unfold delattr. by destruct (attrs s !! name). Qed.
Lemma getitem_frame {V} (d : Parameterized tensor → gmap string V)
      self key s :
  same_registries self s → same_registries self (getitem d key s).2.
Proof. unfold getitem. by destruct (d s !! key). Qed.
Lemma biject_to_frame {S} (P : S → Prop) c (s : S) :
  P s → P (biject_to_ c s).2.
Proof. unfold biject_to_. by destruct (biject_to c). Qed.
Lemma mret_frame {S A} (P : S → Prop) (a : A) (s : S) :
  P s → P ((mret a : M S A) s).2.
Proof. done. Qed.
Lemma raise_frame {S A} (P : S → Prop) e (s : S) :
  P s → P ((raise e : M S A) s).2.
Proof. done. Qed.
Lemma gets_frame {S A} (P : S → Prop) (f : S → A) (s : S) :
  P s → P (gets f s).2.
Proof. done. Qed.
Lemma super_setattr_frame self name v s :
  same_registries self s → same_registries self (super_setattr name v s).2.
Proof. done. Qed.
Lemma cache_set_frame self name v s :
  same_registries self s → same_registries self (cache_set name v s).2.
Proof. done. Qed.
Lemma on_self_frame {A} (P : Parameterized tensor → Prop)
      (m : M (Parameterized tensor) A) r :
  P (m (self_ r)).2 → P (self_ (on_self m r).2).
Proof. unfold on_self. by destruct (m (self_ r)). Qed.
Lemma pyro_sample_frame (P : Parameterized tensor → Prop) name fn aux r :
  P (self_ r) → P (self_ (pyro_sample name fn aux r).2).
Proof. done. Qed.

Create HintDb frame.
Hint Resolve getattr_frame delattr_frame getitem_frame
  super_setattr_frame cache_set_frame : frame.

Ltac frame_tac :=
  repeat first
    [ progress auto with frame
    | apply biject_to_frame
    | apply mret_frame
    | apply raise_frame
    | apply gets_frame
    | apply pyro_sample_frame
    | apply bind_preserves; [|intros ? ? ?]
    | apply for_each_preserves; [|intros ? ? ?]
    | apply for_list_preserves; [|intros ? ? ?]
    | apply on_self_frame
    | match goal with
      | |- _ ((match ?x with _ => _ end) _).2 => destruct x
      | |- _ (_ ((match ?x with _ => _ end) _).2) => destruct x
      | |- _ ((if ?x then _ else _) _).2 => destruct x
      | |- _ (_ ((if ?x then _ else _) _).2) => destruct x
      | |- _ ((let '(_, _) := ?x in _) _).2 => destruct x
      | |- _ (_ ((let '(_, _) := ?x in _) _).2) => destruct x
      end ].









(** With a prior, a supported family and, for the families that need
    one, a transform for the prior's support, [autoguide] raises neither
    a [ValueError] nor a [NotImplementedError]. *)
Lemma autoguide_no_own_error name c self prior :
  _priors self !! name = Some prior →
  c ∈ [dist.Delta; dist.Normal; dist.MultivariateNormal] →
  c = dist.Delta ∨ is_Some (biject_to (support prior)) →
  from_host (autoguide name c self).1.
Proof.
  intros Hp Hc Ht. unfold autoguide.
  rewrite decide_False by (by rewrite Hp).
  rewrite decide_False by (intros Hn; by apply Hn).
  assert (Hself : same_registries self self) by done.
  apply (bind_from_host_post (same_registries self)).
  { destruct (_guides self !! name) as [[c0 args]|]; [|done].
    apply for_each_from_host. intros arg s. unfold delattr.
    by destruct (attrs s !! fmt name arg). }
  { frame_tac. }
  intros _ s1 Hs1.
  apply (bind_from_host_post (same_registries self)).
  { unfold getattr. by destruct (attrs s1 !! name). }
  { frame_tac. }
  intros p s2 [Hp2 _].
  destruct c; [| | |exfalso; set_solver];
    unfold mbind, M_bind, getitem, biject_to_; rewrite Hp2, Hp; cbn.
  - done.
  - destruct Ht as [[=]|[t ->]]. done.
  - destruct Ht as [[=]|[t ->]]. cbn. by destruct (last (shape _)).
Qed.
End Registries.

(** ** Module trees and [__setattr__] *)

Section Modules.
Context {tensor : Type} `{!Host tensor}.
Implicit Types (self s : Parameterized tensor) (name arg : string).
Implicit Types (r : runtime tensor) (m : module tensor).

Lemma module_ind' (P : module tensor → Prop) :
  (∀ self children,
     Forall (fun c => P c.2) children →
     P (ParameterizedModule self children)) →
  (∀ children, Forall (fun c => P c.2) children → P (PlainModule children)) →
  ∀ m, P m.
Proof.
  intros HP HO. fix IH 1. intros [self ch|ch]; [apply HP|apply HO];
    (induction ch as [|[n c] ch IHch]; constructor; [apply IH|apply IHch]).
Qed.


Lemma set_mode_sets md m :
  all_parameterized (fun self => mode self = Some md) (set_mode md m).
Proof.
  induction m as [self ch IH|ch IH] using module_ind'; cbn.
  - split; [done|]. induction IH as [|[n c] ch Hc _ IHch]; cbn; auto.
  - induction IH as [|[n c] ch Hc _ IHch]; cbn; auto.
Qed.


Lemma setattr_sample_run self name prior :
  __setattr__ name (PyroSample prior) self =
  autoguide name dist.Delta
    (set_priors (insert name prior)
       (set_attrs (insert name (PyroSample prior)) self)).
Proof. reflexivity. Qed.

End Modules.

(** ** [_get_guide] *)

Section Sampling.
Context {tensor : Type} `{!Host tensor}.
Implicit Types (self s : Parameterized tensor) (name arg : string).
Implicit Types (r : runtime tensor).


Lemma on_self_ok {A} (m : M (Parameterized tensor) A) r a :
  m (self_ r) = (Ok a, self_ r) → on_self m r = (Ok a, r).
Proof. unfold on_self. intros ->. by destruct r. Qed.

Lemma getitem_ok {V} (d : Parameterized tensor → gmap string V) key self v :
  d self !! key = Some v → getitem d key self = (Ok v, self).
Proof. unfold getitem. by intros ->. Qed.



(** The state a returning [autoguide] leaves for a [Normal] or
    [MultivariateNormal] family is one [_get_guide] can read: the prior
    and the guide are registered, a transform exists for the prior's
    support, and the sub-parameters are attributes. *)
Lemma autoguide_guide_readable name c self self' :
  autoguide name c self = (Ok (), self') →
  c ≠ dist.Delta →
  ∃ prior t kwargs,
    _priors self' !! name = Some prior ∧
    _guides self' !! name = Some (c, suffixes c) ∧
    biject_to (support prior) = Some t ∧
    guide_kwargs self' name (suffixes c) = Some kwargs.
Proof.
  intros Hrun Hc.
  apply autoguide_ok_inv in Hrun
    as (_ & _ & _ & Hp & Hg & Hnew & _ & Ht).
  destruct (Ht Hc) as (prior & Hprior & [t Hbij]).
  assert (is_Some (guide_kwargs self' name (suffixes c))) as [kwargs Hk].
  { apply mapM_is_Some, Forall_forall. intros arg Harg. cbn.
    destruct (Hnew (fmt name arg)) as [a ->]; [|done].
    by apply list_elem_of_fmap_2. }
  exists prior, t, kwargs. rewrite Hp, Hg, lookup_insert_eq. done.
Qed.

Lemma _get_guide_delta name full_name r dist_args a :
  _guides (self_ r) !! name = Some (dist.Delta, dist_args) →
  attrs (self_ r) !! fmt name "map" = Some a →
  _get_guide name full_name r =
    (Ok (dist.DeltaAt (value_of a) None (dim (value_of a))), r).
Proof.
  intros Hg Ha. unfold _get_guide.
  rewrite (bind_ok _ _ _ _ _ (on_self_ok _ _ _ (getitem_ok _ _ _ _ Hg))).
  rewrite decide_True by done.
  unfold mbind, M_bind, on_self, getattr. rewrite Ha. by destruct r.
Qed.
End Sampling.

(** ** [_pyro_sample] and the cache *)

Section Cache.
Context {tensor : Type} `{!Host tensor}.
Implicit Types (self s : Parameterized tensor) (name arg : string).
Implicit Types (r : runtime tensor).

Lemma _pyro_sample_hit name fn r v :
  _pyro_cache (self_ r) !! name = Some v →
  _pyro_sample name fn r = (Ok v, r).
Proof.
  intros Hv. unfold _pyro_sample, mbind, M_bind, on_self, cache_get, gets.
  cbn. rewrite Hv. by destruct r.
Qed.

Lemma _pyro_sample_miss_model name fn r :
  _pyro_cache (self_ r) !! name = None →
  mode (self_ r) ≠ Some "guide" →
  let s := Site name fn false in
  let value := draw (trace r) s in
  _pyro_sample name fn r =
    (Ok value,
     MkRuntime (set_cache (insert name value) (self_ r)) (trace r ++ [s])).
Proof.
  intros Hv Hm. unfold _pyro_sample, mbind, M_bind, on_self, cache_get, gets.
  cbn. rewrite Hv. cbn. by rewrite decide_False.
Qed.

Lemma _pyro_sample_miss_guide name fn r guide r1 :
  _pyro_cache (self_ r) !! name = None →
  mode (self_ r) = Some "guide" →
  _get_guide (split_last "" name) name r = (Ok guide, r1) →
  let s := Site name guide false in
  let value := draw (trace r1) s in
  _pyro_sample name fn r =
    (Ok value,
     MkRuntime (set_cache (insert name value) (self_ r1)) (trace r1 ++ [s])).
Proof.
  intros Hv Hm Hg.
  unfold _pyro_sample, mbind, M_bind, on_self, cache_get, gets.
  cbn. rewrite Hv. cbn. rewrite decide_True by done.
  destruct r as [self t]. cbn in *. by rewrite Hg.
Qed.

Lemma _pyro_sample_miss_raise name fn r e r1 :
  _pyro_cache (self_ r) !! name = None →
  mode (self_ r) = Some "guide" →
  _get_guide (split_last "" name) name r = (Raise e, r1) →
  _pyro_sample name fn r = (Raise e, r1).
Proof.
  intros Hv Hm Hg.
  unfold _pyro_sample, mbind, M_bind, on_self, cache_get, gets.
  cbn. rewrite Hv. cbn. rewrite decide_True by done.
  destruct r as [self t]. cbn in *. by rewrite Hg.
Qed.



(** *** At most one draw per name *)


Lemma on_self_readonly {A} (P : runtime tensor → Prop)
      (m : M (Parameterized tensor) A) r :
  (m (self_ r)).2 = self_ r → P r → P (on_self m r).2.
Proof.
  unfold on_self. destruct (m (self_ r)) as [a s]. cbn. intros ->.
  by destruct r.
Qed.

Lemma getattr_readonly name self : (getattr name self).2 = self.
Proof. unfold getattr. by destruct (attrs self !! name). Qed.

Lemma getitem_readonly {V} (d : Parameterized tensor → gmap string V)
      key self :
  (getitem d key self).2 = self.
Proof. unfold getitem. by destruct (d self !! key). Qed.

Lemma read_kwargs_readonly name dist_args self :
  (for_list (fun arg => v ← getattr (fmt name arg); mret (arg, v))
            dist_args self).2 = self.
Proof.
  apply (for_list_preserves (fun s => s = self)); [done|].
  intros arg s ->. unfold mbind, M_bind, getattr.
  by destruct (attrs self !! fmt name arg).
Qed.






(** *** At most one stochastic draw per name read *)






End Cache.

(** ** The claims *)

Section Claims.
Context {tensor : Type} `{!Host tensor}.
Implicit Types (self s : Parameterized tensor) (name arg : string).
Implicit Types (r : runtime tensor) (m : module tensor).





(** C5 (amended). For a name that has a guide, a returning [autoguide]
    has deleted every suffixed attribute of the old guide before creating
    the new ones: afterwards the registry holds the new family with its
    suffixes, an attribute of the old guide is present exactly when the
    new family uses the same suffix, and away from the new family's
    suffixes the attributes are those left by the deletion. *)
Theorem autoguide_replaces_old_guide self self' name c c_old args_old :
  _guides self !! name = Some (c_old, args_old) →
  autoguide name c self = (Ok (), self') →
  _guides self' !! name = Some (c, suffixes c) ∧
  (∀ arg, arg ∈ args_old →
     (is_Some (attrs self' !! fmt name arg) ↔ arg ∈ suffixes c)) ∧
  (∀ k, k ∉ fmt name <$> suffixes c →
     attrs self' !! k =
     without_guide_attrs name args_old (attrs self) !! k).
Proof. apply autoguide_old_suffixes. Qed.


(** C7 (amended). [autoguide] raises the missing-prior [ValueError]
    whenever no prior is registered for the name; it raises the
    unsupported-family [NotImplementedError] whenever a prior is
    registered and the family is none of [Delta], [Normal],
    [MultivariateNormal]; in both cases the instance is unchanged.  With
    a prior and one of the three families it raises neither a
    [ValueError] nor a [NotImplementedError], provided [biject_to] has a
    transform for the prior's support: without one, [biject_to] raises a
    [NotImplementedError] of its own under [Normal] and
    [MultivariateNormal]. *)
Theorem autoguide_errors self name c :
  (_priors self !! name = None →
   autoguide name c self =
     (Raise (ValueError ("There is no prior for parameter: " +:+ name)),
      self)) ∧
  (is_Some (_priors self !! name) →
   c ∉ [dist.Delta; dist.Normal; dist.MultivariateNormal] →
   autoguide name c self =
     (Raise (NotImplementedError ("Unsupported distribution type: "
                                  +:+ dist.repr c)), self)) ∧
  (∀ prior,
     _priors self !! name = Some prior →
     c ∈ [dist.Delta; dist.Normal; dist.MultivariateNormal] →
     is_Some (biject_to (support prior)) →
     from_host (autoguide name c self).1).
Proof.
  destruct (autoguide_checks self name c) as [Hmissing Hunsupported].
  split; [done|]. split; [done|].
  intros prior Hprior Hc Ht. apply (autoguide_no_own_error _ _ _ prior); auto.
Qed.

End Claims.

(** ** The claims on a concrete host *)

Module Examples.
Import SingletonHost.
Local Open Scope R_scope.

Example delta_a_guides : _guides delta_a !! "a" = Some (dist.Delta, ["map"]).
Proof. reflexivity. Qed.

Example delta_a_map :
  attrs delta_a !! "a_map" = Some (PyroParam 1 constraints.positive).
Proof. reflexivity. Qed.

Example normal_a_run : autoguide "a" dist.Normal delta_a = (Ok (), normal_a).
Proof. reflexivity. Qed.

Example normal_a_attrs :
  attrs normal_a !! "a_loc" = Some (NNParameter (ln 1)) ∧
  attrs normal_a !! "a_scale" = Some (PyroParam 1 constraints.positive) ∧
  attrs normal_a !! "a_map" = None.
Proof. repeat split. Qed.

(** Two reads of [a] in guide mode under the [Normal] guide: one
    auxiliary draw and one draw under the name, then a cache hit. *)
Example normal_a_guide_pass :
  let r0 := MkRuntime (mode_setter "guide" normal_a) [] in
  let r1 := (_pyro_sample "a" LogNormal r0).2 in
  (_pyro_sample "a" LogNormal r0).1 = Ok 1 ∧
  List.map (fun s => (site_name s, is_auxiliary s)) (trace r1) =
    [("a_latent", true); ("a", false)] ∧
  _pyro_sample "a" LogNormal r1 = (Ok 1, r1).
Proof. repeat split. Qed.

(** The auxiliary draw is the first of the pass, so [u = 0]: the value
    is [exp 0] and the log-density is [- 0]. *)
Example normal_a_guide_distribution :
  (_get_guide "a" "a" (MkRuntime normal_a [])).1 =
    Ok (dist.DeltaAt (exp 0) (Some (- 0)) 1).
Proof. reflexivity. Qed.








(** Switching from [Normal] to [MultivariateNormal]: [a_loc], an
    attribute of the old guide, is an attribute afterwards. *)
Lemma autoguide_old_suffix_remains :
  _guides normal_a !! "a" = Some (dist.Normal, ["loc"; "scale"]) ∧
  ∃ self',
    autoguide "a" dist.MultivariateNormal normal_a = (Ok (), self') ∧
    is_Some (attrs self' !! fmt "a" "loc").
Proof.
  split; [reflexivity|]. eexists. split; [reflexivity|]. by eexists.
Qed.

Lemma autoguide_replaces_old_guide_witness :
  attrs normal_a !! "a_map" = None ∧
  _guides normal_a !! "a" = Some (dist.Normal, ["loc"; "scale"]).
Proof.
  destruct (autoguide_replaces_old_guide
              delta_a normal_a "a" dist.Normal dist.Delta ["map"])
    as (Hg & Hold & _); [reflexivity|reflexivity|].
  split; [|exact Hg].
  apply eq_None_not_Some. intros Hsome.
  apply (Hold "map") in Hsome; [|by apply list_elem_of_singleton].
  by repeat (apply elem_of_cons in Hsome as [?|Hsome]; [done|]);
     apply elem_of_nil in Hsome.
Defined.




(** No prior and an unsupported family: the exception is the one for the
    missing prior.  A prior and a supported family: with the boolean
    support of [Bernoulli], [autoguide("z", dist.Normal)] raises the
    [NotImplementedError] of [biject_to], after it has deleted
    [z_map]. *)
Lemma autoguide_error_cases :
  ((dist.Other "Gamma" ∉ [dist.Delta; dist.Normal; dist.MultivariateNormal]) ∧
   (autoguide "a" (dist.Other "Gamma") (__init__ (tensor := R)) =
      (Raise (ValueError "There is no prior for parameter: a"), __init__))) ∧
  (_priors SingletonStates.delta_z !! "z" = Some SingletonStates.Bernoulli ∧
   (autoguide "z" dist.Normal SingletonStates.delta_z).1 =
     Raise (NotImplementedError "Cannot transform _Boolean constraints") ∧
   attrs SingletonStates.delta_z !! "z_map" =
     Some (PyroParam 1 constraints.boolean) ∧
   attrs (autoguide "z" dist.Normal SingletonStates.delta_z).2 !! "z_map" =
     None).
Proof.
  split; [split; [|reflexivity]|repeat split].
  intros H. repeat (apply elem_of_cons in H as [?|H]; [done|]).
  by apply elem_of_nil in H.
Qed.

Lemma autoguide_errors_witness :
  autoguide "a" (dist.Other "Gamma") delta_a =
    (Raise (NotImplementedError "Unsupported distribution type: Gamma"),
     delta_a) ∧
  from_host (autoguide "a" dist.Normal delta_a).1.
Proof.
  split.
  - destruct (autoguide_errors delta_a "a" (dist.Other "Gamma"))
      as (_ & Hunsupported & _).
    apply Hunsupported; [by eexists|].
    intros H. repeat (apply elem_of_cons in H as [?|H]; [done|]).
    by apply elem_of_nil in H.
  - destruct (autoguide_errors delta_a "a" dist.Normal) as (_ & _ & Hnone).
    apply (Hnone LogNormal); [reflexivity| |by eexists].
    right. by left.
Defined.

End Examples.

(* ===================================================================== *)
(** * Part III: further properties of the code                           *)
(* ===================================================================== *)

(** ** Sequences with a postcondition *)

Section MonadSpec.
Context {S : Type}.

Lemma for_each_preserves_in {A} (P : S → Prop) (f : A → M S ()) l s :
  P s → (∀ a s', a ∈ l → P s' → P (f a s').2) → P (for_each f l s).2.
Proof.
  revert s. induction l as [|a l IH]; intros s Hs Hf; [done|].
  cbn. apply bind_preserves.
  - apply Hf; [by left|done].
  - intros _ s' Hs'. apply IH; [done|]. intros b s2 Hb. apply Hf. by right.
Qed.
End MonadSpec.

(** ** [autoguide]: the other families and the failures *)

Section AutoguideMore.
Context {tensor : Type} `{!Host tensor}.
Implicit Types (self s : Parameterized tensor) (name arg : string).

(** X1. [autoguide name Normal], with a transform for the prior's
    support, returns and stores [name_loc], a free parameter holding the
    detached inverse transform of the attribute's value, and
    [name_scale], a positive parameter of ones of the same shape. *)
Theorem autoguide_normal_params self name prior a t :
  _priors self !! name = Some prior →
  attrs self !! name = Some a →
  guide_attrs_present self name →
  biject_to (support prior) = Some t →
  let loc := detach (inv t (value_of a)) in
  ∃ self',
    autoguide name dist.Normal self = (Ok (), self') ∧
    attrs self' !! fmt name "loc" = Some (NNParameter loc) ∧
    attrs self' !! fmt name "scale" =
      Some (PyroParam (new_ones loc (shape loc)) constraints.positive) ∧
    _guides self' !! name = Some (dist.Normal, ["loc"; "scale"]).
Proof.
  intros Hprior Ha Hold Ht loc. eexists. split.
  - unfold autoguide.
    rewrite decide_False by (by rewrite Hprior).
    rewrite decide_False by (intros Hn; apply Hn; set_solver).
    unfold mbind, M_bind. rewrite delete_old_guide_ok by done.
    unfold getattr. cbn [attrs set_attrs].
    rewrite lookup_without_guide_attrs,
      decide_False by apply name_not_suffixed.
    rewrite Ha. unfold getitem, biject_to_. cbn [_priors set_attrs].
    rewrite Hprior, Ht. cbn. reflexivity.
  - cbn. split; [|split].
    + rewrite lookup_insert_ne, lookup_insert_eq; [done|].
      intros Heq. by apply fmt_inj in Heq.
    + by rewrite lookup_insert_eq.
    + by rewrite lookup_insert_eq.
Qed.

Lemma autoguide_multivariate_normal_run self name prior a t :
  _priors self !! name = Some prior →
  attrs self !! name = Some a →
  guide_attrs_present self name →
  biject_to (support prior) = Some t →
  let loc := detach (inv t (value_of a)) in
  let stale := set_attrs (without_guide_attrs name (old_args self name)) self in
  match last (shape loc) with
  | Some n =>
      ∃ self',
        autoguide name dist.MultivariateNormal self = (Ok (), self') ∧
        attrs self' !! fmt name "loc" = Some (NNParameter loc) ∧
        attrs self' !! fmt name "scale_tril" =
          Some (PyroParam
                  (tensor_repeat (eye_like loc n)
                                 (removelast (shape loc) ++ [1; 1]))
                  constraints.lower_cholesky) ∧
        _guides self' !! name =
          Some (dist.MultivariateNormal, ["loc"; "scale_tril"])
  | None =>
      autoguide name dist.MultivariateNormal self = (Raise IndexError, stale)
  end.
Proof.
  intros Hprior Ha Hold Ht loc stale.
  assert (Hrun : autoguide name dist.MultivariateNormal self =
    match last (shape loc) with
    | Some n =>
        (Ok (),
         set_guides (insert name (dist.MultivariateNormal, ["loc"; "scale_tril"]))
           (set_attrs
              (insert (fmt name "scale_tril")
                 (PyroParam
                    (tensor_repeat (eye_like loc n)
                                   (removelast (shape loc) ++ [1; 1]))
                    constraints.lower_cholesky))
              (set_attrs (insert (fmt name "loc") (NNParameter loc)) stale)))
    | None => (Raise IndexError, stale)
    end).
  { unfold autoguide.
    rewrite decide_False by (by rewrite Hprior).
    rewrite decide_False by (intros Hn; apply Hn; set_solver).
    unfold mbind, M_bind. rewrite delete_old_guide_ok by done.
    unfold getattr. cbn [attrs set_attrs].
    rewrite lookup_without_guide_attrs,
      decide_False by apply name_not_suffixed.
    rewrite Ha. unfold getitem, biject_to_. cbn [_priors set_attrs].
    rewrite Hprior, Ht. cbn. fold loc. by destruct (last (shape loc)). }
  destruct (last (shape loc)) as [n|]; [|done].
  eexists. split; [exact Hrun|]. cbn. split; [|split].
  - rewrite lookup_insert_ne, lookup_insert_eq; [done|].
    intros Heq. by apply fmt_inj in Heq.
  - by rewrite lookup_insert_eq.
  - by rewrite lookup_insert_eq.
Qed.

(** X2. [autoguide name MultivariateNormal], with a transform for the
    prior's support and a location of at least one dimension, returns
    and stores [name_loc] as for [Normal] and [name_scale_tril], a
    lower-Cholesky parameter of identity matrices of the last dimension
    repeated over the leading ones. *)
Theorem autoguide_multivariate_normal_params self name prior a t n :
  _priors self !! name = Some prior →
  attrs self !! name = Some a →
  guide_attrs_present self name →
  biject_to (support prior) = Some t →
  let loc := detach (inv t (value_of a)) in
  last (shape loc) = Some n →
  ∃ self',
    autoguide name dist.MultivariateNormal self = (Ok (), self') ∧
    attrs self' !! fmt name "loc" = Some (NNParameter loc) ∧
    attrs self' !! fmt name "scale_tril" =
      Some (PyroParam
              (tensor_repeat (eye_like loc n)
                             (removelast (shape loc) ++ [1; 1]))
              constraints.lower_cholesky) ∧
    _guides self' !! name =
      Some (dist.MultivariateNormal, ["loc"; "scale_tril"]).
Proof.
  intros Hprior Ha Hold Ht loc Hlast.
  pose proof (autoguide_multivariate_normal_run self name prior a t
                Hprior Ha Hold Ht) as Hrun.
  cbn zeta in Hrun. fold loc in Hrun. by rewrite Hlast in Hrun.
Qed.

(** After the checks, [autoguide] deletes the old guide and reads the
    attribute. *)
Lemma autoguide_stale_run name c self prior :
  _priors self !! name = Some prior →
  guide_attrs_present self name →
  c ∈ [dist.Delta; dist.Normal; dist.MultivariateNormal] →
  let stale := set_attrs (without_guide_attrs name (old_args self name)) self in
  (attrs self !! name = None →
   autoguide name c self = (Raise (AttributeError name), stale)) ∧
  (is_Some (attrs self !! name) → c ≠ dist.Delta →
   biject_to (support prior) = None →
   autoguide name c self =
     (Raise (NotImplementedError (cannot_transform (support prior))),
      stale)).
Proof.
  intros Hprior Hold Hc stale.
  split.
  - intros Ha. unfold autoguide.
    rewrite decide_False by (by rewrite Hprior).
    rewrite decide_False by (intros Hn; by apply Hn).
    unfold mbind, M_bind. rewrite delete_old_guide_ok by done.
    unfold getattr. cbn [attrs set_attrs].
    rewrite lookup_without_guide_attrs,
      decide_False by apply name_not_suffixed.
    by rewrite Ha.
  - intros [a Ha] Hd Ht. unfold autoguide.
    rewrite decide_False by (by rewrite Hprior).
    rewrite decide_False by (intros Hn; by apply Hn).
    unfold mbind, M_bind. rewrite delete_old_guide_ok by done.
    unfold getattr. cbn [attrs set_attrs].
    rewrite lookup_without_guide_attrs,
      decide_False by apply name_not_suffixed.
    rewrite Ha. unfold getitem, biject_to_.
    destruct c; [done| | |exfalso; set_solver];
      cbn [_priors set_attrs]; by rewrite Hprior, Ht.
Qed.

(** X3. With a prior registered but no attribute [name], [autoguide]
    raises the [AttributeError] for [name] after the old guide's
    attributes have been deleted. *)
Theorem autoguide_missing_attribute self name prior c :
  _priors self !! name = Some prior →
  guide_attrs_present self name →
  c ∈ [dist.Delta; dist.Normal; dist.MultivariateNormal] →
  attrs self !! name = None →
  autoguide name c self =
    (Raise (AttributeError name),
     set_attrs (without_guide_attrs name (old_args self name)) self).
Proof.
  intros Hprior Hold Hc Ha.
  by apply (autoguide_stale_run name c self prior Hprior Hold Hc).
Qed.

(** X4. [autoguide] is not atomic: when [biject_to] has no transform
    for the prior's support, or the location has no dimension for
    [MultivariateNormal], the call raises after the old guide's
    attributes are deleted; the registry still names the old guide and
    none of its attributes is left. *)
Theorem autoguide_failure_leaves_stale_guide
        self name prior a c_old args_old :
  _priors self !! name = Some prior →
  attrs self !! name = Some a →
  _guides self !! name = Some (c_old, args_old) →
  guide_attrs_present self name →
  let stale := set_attrs (without_guide_attrs name args_old) self in
  (∀ c, c = dist.Normal ∨ c = dist.MultivariateNormal →
     biject_to (support prior) = None →
     autoguide name c self =
       (Raise (NotImplementedError (cannot_transform (support prior))),
        stale)) ∧
  (∀ t, biject_to (support prior) = Some t →
     last (shape (detach (inv t (value_of a)))) = None →
     autoguide name dist.MultivariateNormal self = (Raise IndexError, stale)) ∧
  _guides stale !! name = Some (c_old, args_old) ∧
  ∀ arg, arg ∈ args_old → attrs stale !! fmt name arg = None.
Proof.
  intros Hprior Ha Hg Hold stale.
  assert (Hargs : old_args self name = args_old).
  { unfold old_args. by rewrite Hg. }
  split; [|split; [|split; [done|]]].
  - intros c Hc Ht.
    pose proof (autoguide_stale_run name c self prior Hprior Hold) as Hrun.
    rewrite Hargs in Hrun.
    apply Hrun; [destruct Hc as [-> | ->]; set_solver|by eexists| |done].
    by destruct Hc as [-> | ->].
  - intros t Ht Hlast. unfold autoguide.
    rewrite decide_False by (by rewrite Hprior).
    rewrite decide_False by (intros Hn; apply Hn; set_solver).
    unfold mbind, M_bind. rewrite delete_old_guide_ok by done.
    unfold getattr. cbn [attrs set_attrs].
    rewrite lookup_without_guide_attrs,
      decide_False by apply name_not_suffixed.
    rewrite Ha. unfold getitem, biject_to_. cbn [_priors set_attrs].
    rewrite Hprior, Ht. cbn. rewrite Hlast, Hargs. done.
  - intros arg Harg. subst stale. cbn [attrs set_attrs].
    rewrite lookup_without_guide_attrs, decide_True; [done|].
    by apply list_elem_of_fmap_2.
Qed.

(** X5. When the registry names a guide whose first sub-parameter is
    no attribute, every [autoguide] for the name and every assignment of
    a prior to it raise the [AttributeError] of that sub-parameter;
    [autoguide] leaves the instance as it was. *)
Theorem autoguide_stale_guide_blocks self name c_old arg rest :
  is_Some (_priors self !! name) →
  _guides self !! name = Some (c_old, arg :: rest) →
  attrs self !! fmt name arg = None →
  (∀ c, c ∈ [dist.Delta; dist.Normal; dist.MultivariateNormal] →
     autoguide name c self = (Raise (AttributeError (fmt name arg)), self)) ∧
  (∀ prior,
     (__setattr__ name (PyroSample prior) self).1 =
       Raise (AttributeError (fmt name arg))).
Proof.
  intros [prior0 Hprior] Hg Hstale. split.
  - intros c Hc. unfold autoguide.
    rewrite decide_False by (by rewrite Hprior).
    rewrite decide_False by (intros Hn; by apply Hn).
    rewrite Hg. cbn [for_each].
    unfold mbind, M_bind, delattr at 1. by rewrite Hstale.
  - intros prior. rewrite setattr_sample_run. unfold autoguide.
    rewrite decide_False by (cbn; by rewrite lookup_insert_eq).
    rewrite decide_False by (intros Hn; apply Hn; set_solver).
    cbn [_guides set_attrs set_priors]. rewrite Hg.
    cbn [for_each]. unfold mbind, M_bind, delattr at 1.
    cbn [attrs set_attrs set_priors].
    rewrite lookup_insert_ne by (intros Heq; symmetry in Heq;
                                 by apply fmt_ne_name in Heq).
    by rewrite Hstale.
Qed.
End AutoguideMore.

(** ** What [autoguide] and [__setattr__] leave alone *)

Section AutoguideFrame.
Context {tensor : Type} `{!Host tensor}.
Implicit Types (self s : Parameterized tensor) (name arg : string).

Lemma same_outside_refl keys self : same_outside keys self self.
Proof. done. Qed.

Lemma delattr_same_outside keys self k s :
  k ∈ keys → same_outside keys self s → same_outside keys self (delattr k s).2.
Proof.
  intros Hk Hs. unfold delattr. destruct (attrs s !! k); [|done].
  destruct Hs as (? & ? & ? & ? & Hattrs). repeat split; try done.
  intros k' Hk'. cbn. rewrite lookup_delete_ne by (by intros ->). by apply Hattrs.
Qed.

Lemma super_setattr_same_outside keys self k v s :
  k ∈ keys → same_outside keys self s →
  same_outside keys self (super_setattr k v s).2.
Proof.
  intros Hk (? & ? & ? & ? & Hattrs). repeat split; try done.
  intros k' Hk'. cbn. rewrite lookup_insert_ne by (by intros ->). by apply Hattrs.
Qed.

Lemma getattr_same_outside keys self k s :
  same_outside keys self s → same_outside keys self (getattr k s).2.
Proof. by rewrite getattr_readonly. Qed.

Lemma getitem_same_outside {V} keys self
      (d : Parameterized tensor → gmap string V) k s :
  same_outside keys self s → same_outside keys self (getitem d k s).2.
Proof. by rewrite getitem_readonly. Qed.

Lemma autoguide_effect self name c :
  let res := (autoguide name c self).1 in
  let s' := (autoguide name c self).2 in
  _priors s' = _priors self ∧
  _mode s' = _mode self ∧
  _pyro_cache s' = _pyro_cache self ∧
  (∀ k, k ∉ fmt name <$> (old_args self name ++ suffixes c) →
     attrs s' !! k = attrs self !! k) ∧
  _guides s' =
    match res with
    | Ok _ => <[name := (c, suffixes c)]> (_guides self)
    | Raise _ => _guides self
    end.
Proof.
  set (keys := fmt name <$> (old_args self name ++ suffixes c)).
  set (P := same_outside keys self).
  set (Q := fun (res : result ()) s' =>
    _priors s' = _priors self ∧ _mode s' = _mode self ∧
    _pyro_cache s' = _pyro_cache self ∧
    (∀ k, k ∉ keys → attrs s' !! k = attrs self !! k) ∧
    _guides s' =
      match res with
      | Ok _ => <[name := (c, suffixes c)]> (_guides self)
      | Raise _ => _guides self
      end).
  assert (HPQ : ∀ e s, P s → Q (Raise e) s).
  { intros e s (? & ? & ? & ? & ?). by repeat split. }
  assert (Hself : P self) by apply same_outside_refl.
  assert (Hold : ∀ arg, arg ∈ old_args self name → fmt name arg ∈ keys).
  { intros arg Harg. apply list_elem_of_fmap_2, elem_of_app. by left. }
  assert (Hnew : ∀ arg, arg ∈ suffixes c → fmt name arg ∈ keys).
  { intros arg Harg. apply list_elem_of_fmap_2, elem_of_app. by right. }
  change (Q (autoguide name c self).1 (autoguide name c self).2).
  unfold autoguide. case_decide as Hp; [by apply HPQ|].
  case_decide as Hc; [by apply HPQ|].
  apply (bind_spec (fun _ s => P s)); [|done|].
  { unfold old_args in Hold. destruct (_guides self !! name) as [[c0 args]|];
      [|done].
    apply for_each_preserves_in; [done|]. intros arg s Harg Hs.
    apply delattr_same_outside; auto. }
  intros _ s1 Hs1.
  apply (bind_spec (fun _ s => P s)); [by apply getattr_same_outside|done|].
  intros p s2 Hs2.
  apply (bind_spec (fun res s => P s ∧ ∀ a, res = Ok a → a = suffixes c)).
  - destruct c; cbn [suffixes] in *.
    + unfold mbind, M_bind, getitem.
      destruct (_priors s2 !! name); cbn; [|done]. split; [|by intros ? [= <-]].
      apply super_setattr_same_outside; [|done]. apply Hnew. set_solver.
    + unfold mbind, M_bind, getitem, biject_to_.
      destruct (_priors s2 !! name) as [prior|]; cbn; [|done].
      destruct (biject_to (support prior)); cbn; [|done].
      split; [|by intros ? [= <-]].
      apply (super_setattr_same_outside keys self (fmt name "scale"));
        [apply Hnew; set_solver|].
      apply (super_setattr_same_outside keys self (fmt name "loc"));
        [apply Hnew; set_solver|done].
    + unfold mbind, M_bind, getitem, biject_to_.
      destruct (_priors s2 !! name) as [prior|]; cbn; [|done].
      destruct (biject_to (support prior)); cbn; [|done].
      destruct (last (shape _)); cbn; [|done].
      split; [|by intros ? [= <-]].
      apply (super_setattr_same_outside keys self (fmt name "scale_tril"));
        [apply Hnew; set_solver|].
      apply (super_setattr_same_outside keys self (fmt name "loc"));
        [apply Hnew; set_solver|done].
    + done.
  - intros e s3 [Hs3 _]. by apply HPQ.
  - intros da s3 [(Hp3 & Hg3 & Hm3 & Hc3 & Ha3) Hda].
    rewrite (Hda da eq_refl). subst Q. cbn. rewrite Hg3. by repeat split.
Qed.

(** X6. Whatever its outcome, [autoguide] leaves the priors, the mode,
    the cache and every attribute that is not a suffixed attribute of
    the old or the new guide of the name; the guide registry gets the
    new family exactly when the call returns and is unchanged when it
    raises. *)
Theorem autoguide_frame self name c :
  let res := (autoguide name c self).1 in
  let s' := (autoguide name c self).2 in
  _priors s' = _priors self ∧
  _mode s' = _mode self ∧
  _pyro_cache s' = _pyro_cache self ∧
  (∀ k, k ∉ fmt name <$> (old_args self name ++ suffixes c) →
     attrs s' !! k = attrs self !! k) ∧
  _guides s' =
    match res with
    | Ok _ => <[name := (c, suffixes c)]> (_guides self)
    | Raise _ => _guides self
    end.
Proof. apply autoguide_effect. Qed.


(** X8. Assigning a prior to a name that has a guide, when it returns,
    records the prior, makes [Delta] the guide of the name whatever the
    family was, and leaves [name_map] as the only suffixed attribute of
    the old guide. *)
Theorem setattr_resets_guide self self' name prior c_old args_old :
  _guides self !! name = Some (c_old, args_old) →
  __setattr__ name (PyroSample prior) self = (Ok (), self') →
  _priors self' !! name = Some prior ∧
  _guides self' !! name = Some (dist.Delta, ["map"]) ∧
  is_Some (attrs self' !! fmt name "map") ∧
  ∀ arg, arg ∈ args_old → arg ≠ "map" → attrs self' !! fmt name arg = None.
Proof.
  intros Hg. rewrite setattr_sample_run. intros Hrun.
  apply autoguide_ok_inv in Hrun as (_ & _ & _ & Hp & Hg' & Hnew & Hrest & _).
  split; [by rewrite Hp; cbn; rewrite lookup_insert_eq|].
  split; [by rewrite Hg', lookup_insert_eq|]. split.
  - apply Hnew. cbn. by left.
  - intros arg Harg Hne. rewrite Hrest.
    + rewrite lookup_without_guide_attrs, decide_True; [done|].
      unfold old_args. cbn. rewrite Hg. by apply list_elem_of_fmap_2.
    + cbn. intros [Heq%fmt_inj|Hin%elem_of_nil]%elem_of_cons; done.
Qed.
End AutoguideFrame.

(** ** Names, modes and supports *)

Lemma append_cons (a : ascii) (s t : string) :
  String a s +:+ t = String a (s +:+ t).
Proof. reflexivity. Qed.

Lemma append_empty_r (s : string) : s +:+ "" = s.
Proof.
  induction s as [|a s IH]; [done|]. by rewrite append_cons, IH.
Qed.

Lemma append_snoc (s : string) (c : ascii) (t : string) :
  (s +:+ String c "") +:+ t = s +:+ String c t.
Proof.
  induction s as [|a s IH]; [done|]. by rewrite !append_cons, IH.
Qed.

Lemma split_last_no_dot (cur s : string) :
  no_dot s → split_last cur s = cur +:+ s.
Proof.
  revert cur. induction s as [|c s IH]; intros cur; cbn.
  - intros _. by rewrite append_empty_r.
  - intros [Hc Hs]. destruct (Ascii.eqb c ".") eqn:E.
    + by apply Ascii.eqb_eq in E.
    + by rewrite IH, append_snoc.
Qed.

Lemma split_last_prefix (cur prefix local : string) :
  no_dot local → split_last cur (prefix +:+ "." +:+ local) = local.
Proof.
  intros Hl. revert cur. induction prefix as [|c p IH]; intros cur.
  - change (split_last "" local = local). by rewrite split_last_no_dot.
  - rewrite append_cons. cbn [split_last].
    destruct (Ascii.eqb c "."); apply IH.
Qed.

(** X12. The local name [_pyro_sample] looks the guide up with is the
    part of the full name after its last dot, and the full name itself
    when it has no dot. *)
Theorem split_last_component (prefix local : string) :
  no_dot local →
  split_last "" (prefix +:+ "." +:+ local) = local ∧
  split_last "" local = local.
Proof.
  intros Hl. split; [by apply split_last_prefix|by rewrite split_last_no_dot].
Qed.
Section ModeAndSupport.
Context {tensor : Type} `{!Host tensor}.
Implicit Types (self s : Parameterized tensor) (name arg : string).
Implicit Types (m : module tensor) (d : distribution tensor).

Lemma instances_set_mode md m :
  instances (set_mode md m) = mode_setter md <$> instances m.
Proof.
  induction m as [self ch IH|ch IH] using module_ind'; cbn.
  - f_equal. induction IH as [|[n c] ch Hc _ IHch]; cbn in *; [done|].
    by rewrite fmap_app, Hc, IHch.
  - induction IH as [|[n c] ch Hc _ IHch]; cbn in *; [done|].
    by rewrite fmap_app, Hc, IHch.
Qed.

(** X9. After [set_mode], the [Parameterized] instances of the tree are
    those before it, in the same order, each with the mode set;
    everything but the mode is unchanged. *)
Theorem set_mode_instances md m :
  instances (set_mode md m) = mode_setter md <$> instances m ∧
  Forall (fun self => mode self = Some md) (instances (set_mode md m)) ∧
  without_mode <$> instances (set_mode md m) = without_mode <$> instances m.
Proof.
  rewrite instances_set_mode. split; [done|]. split.
  - apply Forall_fmap, Forall_forall. by intros self _.
  - rewrite <- list_fmap_compose. by apply list_fmap_ext.
Qed.

(** X10. A second [set_mode] overrides the first on the whole tree. *)
Theorem set_mode_last_wins md1 md2 m :
  set_mode md2 (set_mode md1 m) = set_mode md2 m.
Proof.
  induction m as [self ch IH|ch IH] using module_ind'; cbn.
  - f_equal. induction IH as [|[n c] ch Hc _ IHch]; cbn in *; [done|].
    by rewrite Hc, IHch.
  - f_equal. induction IH as [|[n c] ch Hc _ IHch]; cbn in *; [done|].
    by rewrite Hc, IHch.
Qed.

(** X11. [_get_independent_support] ignores independent-dimensions
    adapters, however many and with whatever dimensions: its result is
    the support of the innermost distribution that is not such an
    adapter. *)
Theorem get_independent_support_unwraps d :
  (∀ ns, _get_independent_support (wrap_independent ns d) =
         _get_independent_support d) ∧
  ∃ ns base,
    d = wrap_independent ns base ∧
    (∀ b n, base ≠ dist.Independent b n) ∧
    _get_independent_support d = support base.
Proof.
  split.
  - intros ns. induction ns as [|n ns IH]; [done|]. exact IH.
  - induction d as [b IH n|v ld e|c kw].
    + destruct IH as (ns & base & -> & Hbase & Heq).
      exists (n :: ns), base. by repeat split.
    + exists [], (dist.DeltaAt v ld e). by repeat split.
    + exists [], (dist.Call c kw). by repeat split.
Qed.

End ModeAndSupport.

(** ** [_get_guide] and [_pyro_sample]: the other paths *)

Section SamplingMore.
Context {tensor : Type} `{!Host tensor}.
Implicit Types (self : Parameterized tensor) (name arg : string).
Implicit Types (r : runtime tensor).

Lemma on_self_raise {A} (m : M (Parameterized tensor) A) r e :
  m (self_ r) = (Raise e, self_ r) → on_self m r = (Raise e, r).
Proof. unfold on_self. intros ->. by destruct r. Qed.

(** X13. For a [Delta] guide, [_get_guide] returns the point mass at
    the value of [name_map], with the value's rank as event dimension
    and the default log-density, and draws nothing. *)
Theorem get_guide_delta_point_mass name full_name r dist_args a :
  _guides (self_ r) !! name = Some (dist.Delta, dist_args) →
  attrs (self_ r) !! fmt name "map" = Some a →
  _get_guide name full_name r =
    (Ok (dist.DeltaAt (value_of a) None (dim (value_of a))), r).
Proof. apply _get_guide_delta. Qed.

(** X14. [_get_guide] raises the [KeyError] of the name when no guide
    is registered, and the [AttributeError] of the first sub-parameter
    that is no attribute otherwise; the instance and the trace are
    unchanged. *)
Theorem get_guide_missing name full_name r :
  (_guides (self_ r) !! name = None →
   _get_guide name full_name r = (Raise (KeyError name), r)) ∧
  (∀ dist_args,
     _guides (self_ r) !! name = Some (dist.Delta, dist_args) →
     attrs (self_ r) !! fmt name "map" = None →
     _get_guide name full_name r =
       (Raise (AttributeError (fmt name "map")), r)) ∧
  (∀ c arg dist_args,
     _guides (self_ r) !! name = Some (c, arg :: dist_args) →
     c ≠ dist.Delta →
     attrs (self_ r) !! fmt name arg = None →
     _get_guide name full_name r =
       (Raise (AttributeError (fmt name arg)), r)).
Proof.
  split; [|split].
  - intros Hg. unfold _get_guide.
    apply bind_raise, on_self_raise. unfold getitem. by rewrite Hg.
  - intros dist_args Hg Ha. unfold _get_guide.
    rewrite (bind_ok _ _ _ _ _ (on_self_ok _ _ _ (getitem_ok _ _ _ _ Hg))).
    rewrite decide_True by done.
    apply bind_raise, on_self_raise. unfold getattr. by rewrite Ha.
  - intros c arg dist_args Hg Hc Ha. unfold _get_guide.
    rewrite (bind_ok _ _ _ _ _ (on_self_ok _ _ _ (getitem_ok _ _ _ _ Hg))).
    rewrite decide_False by done.
    apply bind_raise, on_self_raise. cbn [for_list].
    apply bind_raise, bind_raise. unfold getattr. by rewrite Ha.
Qed.

(** [_get_guide] reads the instance and records at most one draw, an
    auxiliary one. *)
Lemma _get_guide_effect name full_name r :
  let r' := (_get_guide name full_name r).2 in
  self_ r' = self_ r ∧
  (trace r' = trace r ∨
   ∃ guide, trace r' = trace r ++ [Site (fmt full_name "latent") guide true]).
Proof.
  set (Q := fun r' : runtime tensor => self_ r' = self_ r ∧
    (trace r' = trace r ∨
     ∃ guide, trace r' = trace r ++ [Site (fmt full_name "latent") guide true])).
  set (P := fun r' : runtime tensor => r' = r).
  assert (HPQ : ∀ r1, P r1 → Q r1) by (intros r1 ->; split; auto).
  assert (Hr : P r) by done.
  change (Q (_get_guide name full_name r).2). unfold _get_guide.
  apply (bind_post P).
  { apply on_self_readonly; [apply getitem_readonly|done]. }
  { done. }
  intros [c args] r1 Hr1. case_decide.
  { apply HPQ. apply bind_preserves; [|done].
    apply on_self_readonly; [apply getattr_readonly|done]. }
  apply (bind_post P).
  { apply on_self_readonly; [apply read_kwargs_readonly|done]. }
  { done. }
  intros kwargs r2 Hr2. apply (bind_post P).
  { apply on_self_readonly; [apply getitem_readonly|done]. }
  { done. }
  intros prior r3 ->. case_decide; [by apply HPQ|].
  apply (bind_preserves Q).
  { split; [done|]. right. by eexists. }
  intros u r4 Hr4. apply (bind_preserves Q).
  { apply on_self_readonly; [apply getitem_readonly|done]. }
  intros prior' r5 Hr5. apply (bind_preserves Q); [|done].
  by apply biject_to_frame.
Qed.

(** X15. Whatever its outcome, [_get_guide] leaves the instance
    unchanged and records at most one draw, an auxiliary one named after
    the full name with suffix [latent]. *)
Theorem get_guide_reads_only name full_name r :
  let r' := (_get_guide name full_name r).2 in
  self_ r' = self_ r ∧
  (trace r' = trace r ∨
   ∃ guide, trace r' = trace r ++ [Site (fmt full_name "latent") guide true]).
Proof. apply _get_guide_effect. Qed.

(** X16. In guide mode a read of a name that is not cached and whose
    local name has no guide raises the [KeyError] of the local name;
    nothing is drawn and nothing is cached. *)
Theorem pyro_sample_guide_missing name fn r :
  _pyro_cache (self_ r) !! name = None →
  mode (self_ r) = Some "guide" →
  _guides (self_ r) !! split_last "" name = None →
  _pyro_sample name fn r = (Raise (KeyError (split_last "" name)), r).
Proof.
  intros Hc Hm Hg. apply _pyro_sample_miss_raise; [done|done|].
  unfold _get_guide. apply bind_raise, on_self_raise.
  unfold getitem. by rewrite Hg.
Qed.

(** X17. Whatever its outcome, [_pyro_sample] leaves attributes,
    priors, guides and mode unchanged, changes the cache at most at the
    name read, and only appends to the trace. *)
Theorem pyro_sample_touches_cache_only name fn r :
  let r' := (_pyro_sample name fn r).2 in
  attrs (self_ r') = attrs (self_ r) ∧
  _priors (self_ r') = _priors (self_ r) ∧
  _guides (self_ r') = _guides (self_ r) ∧
  _mode (self_ r') = _mode (self_ r) ∧
  (∀ k, k ≠ name →
     _pyro_cache (self_ r') !! k = _pyro_cache (self_ r) !! k) ∧
  trace r `prefix_of` trace r'.
Proof.
  cbn zeta.
  assert (Hguide : ∀ r1, r1 = (_get_guide (split_last "" name) name r).2 →
            self_ r1 = self_ r ∧ trace r `prefix_of` trace r1).
  { intros r1 ->.
    destruct (_get_guide_effect (split_last "" name) name r)
      as [Hs [Ht|[g Ht]]]; (split; [done|]); rewrite Ht; [done|].
    by apply prefix_app_r. }
  destruct (_pyro_cache (self_ r) !! name) as [w|] eqn:Hc.
  { rewrite (_pyro_sample_hit _ _ _ _ Hc). by repeat split. }
  destruct (decide (mode (self_ r) = Some "guide")) as [Hm|Hm].
  - destruct (_get_guide (split_last "" name) name r) as [[g|e] r1] eqn:Heq.
    + rewrite (_pyro_sample_miss_guide _ _ _ _ _ Hc Hm Heq).
      destruct (Hguide r1 eq_refl) as [Hs Ht]. cbn. rewrite Hs.
      repeat split; try done.
      * intros k Hk. by rewrite lookup_insert_ne.
      * by apply prefix_app_r.
    + rewrite (_pyro_sample_miss_raise _ _ _ _ _ Hc Hm Heq).
      destruct (Hguide r1 eq_refl) as [Hs Ht]. cbn. rewrite Hs.
      by repeat split.
  - rewrite (_pyro_sample_miss_model _ _ _ Hc Hm). cbn.
    repeat split; try done.
    + intros k Hk. by rewrite lookup_insert_ne.
    + by apply prefix_app_r.
Qed.

(** X18. After a prior has been assigned to [name], a first read of a
    full name ending in [name] in guide mode draws, under the full name,
    from the point mass at the value of [name_map], and caches the
    value. *)
Theorem setattr_then_guide_read self self' name full_name prior trace0 :
  __setattr__ name (PyroSample prior) self = (Ok (), self') →
  split_last "" full_name = name →
  _pyro_cache self' !! full_name = None →
  ∃ p_map,
    attrs self' !! fmt name "map" = Some p_map ∧
    let r := MkRuntime (mode_setter "guide" self') trace0 in
    let guide := dist.DeltaAt (value_of p_map) None (dim (value_of p_map)) in
    let s := Site full_name guide false in
    let value := draw trace0 s in
    _pyro_sample full_name prior r =
      (Ok value,
       MkRuntime (set_cache (insert full_name value) (mode_setter "guide" self'))
                 (trace0 ++ [s])).
Proof.
  intros Hrun Hname Hc. rewrite setattr_sample_run in Hrun.
  apply autoguide_ok_inv in Hrun as (_ & _ & _ & _ & Hg & Hnew & _).
  destruct (Hnew (fmt name "map")) as [p_map Hmap]; [cbn; by left|].
  exists p_map. split; [done|]. cbn zeta.
  assert (Hguide :
    _get_guide (split_last "" full_name) full_name
      (MkRuntime (mode_setter "guide" self') trace0) =
    (Ok (dist.DeltaAt (value_of p_map) None (dim (value_of p_map))),
     MkRuntime (mode_setter "guide" self') trace0)).
  { rewrite Hname. apply (_get_guide_delta _ _ _ ["map"]); [|done].
    cbn. by rewrite Hg, lookup_insert_eq. }
  exact (_pyro_sample_miss_guide full_name prior
           (MkRuntime (mode_setter "guide" self') trace0) _ _
           Hc eq_refl Hguide).
Qed.
End SamplingMore.

(** ** [polya_gamma.py]: order and small values *)

Module TruncatedPolyaGammaMore.
Import TruncatedPolyaGamma TruncatedPolyaGammaSpec.
Local Open Scope R_scope.

Lemma tsum_div_pos (x d : list R) :
  x <> [] -> d <> [] ->
  Forall (fun g => 0 < g) x -> Forall (fun e => 0 < e) d ->
  0 < tsum (zip_with Rdiv x d).
Proof.
  intros Hx Hd Hpx Hpd.
  destruct Hpx as [|g x Hg Hpx]; [congruence|].
  destruct Hpd as [|e d He Hpd]; [congruence|].
  simpl.
  assert (0 < g / e) by (apply Rdiv_lt_0_compat; assumption).
  assert (0 <= tsum (zip_with Rdiv x d)).
  { apply tsum_div_nonneg; [|assumption].
    eapply Forall_impl; [exact Hpx|]. simpl. intros; lra. }
  lra.
Qed.

Lemma tsum_div_le (x y d : list R) :
  Forall2 Rle x y -> Forall (fun e => 0 < e) d ->
  tsum (zip_with Rdiv x d) <= tsum (zip_with Rdiv y d).
Proof.
  intros Hxy. revert d. induction Hxy as [|a b x y Hab Hxy IH]; intros d Hd.
  - simpl. lra.
  - destruct Hd as [|e d He Hd]; simpl; [lra|].
    specialize (IH d Hd).
    assert (a / e <= b / e).
    { unfold Rdiv. apply Rmult_le_compat_r; [|assumption].
      left. apply Rinv_0_lt_compat. assumption. }
    lra.
Qed.

(** X19. On positive Gamma variates [sample] is positive and at most
    2.5. *)
Theorem sample_positive (x : list R) :
  x <> [] ->
  Forall (fun g => 0 < g) x ->
  0 < sample x <= 2.5.
Proof.
  intros Hne Hx. unfold sample, clip_max, truncation_point. split.
  - apply Rmin_glb_lt; [|lra].
    apply Rmult_lt_0_compat; [|apply scale_pos].
    apply tsum_div_pos; [assumption|discriminate|assumption|apply denom_pos].
  - apply Rmin_r.
Qed.

(** X20. [sample] is monotone in the variates. *)
Theorem sample_monotone (x y : list R) :
  Forall2 Rle x y ->
  sample x <= sample y.
Proof.
  intros Hxy. unfold sample, clip_max.
  apply Rle_min_compat_r.
  apply Rmult_le_compat_r; [left; apply scale_pos|].
  apply tsum_div_le; [assumption|apply denom_pos].
Qed.

Lemma ln_lt_pred (x : R) : 1 < x -> ln x < x - 1.
Proof.
  intros Hx.
  assert (H : 1 + (x - 1) < exp (x - 1)) by (apply exp_ineq1; lra).
  replace (1 + (x - 1)) with x in H by lra.
  rewrite <- (ln_exp (x - 1)). apply ln_increasing; lra.
Qed.

Lemma series_term_decreasing (v : R) (n : nat) :
  0 < v <= 1 / 2 -> series_term v (S n) < series_term v n.
Proof.
  intros [Hv Hv2]. unfold series_term. rewrite S_INR.
  pose proof (pos_INR n) as Hn.
  assert (H1 : ln (2 * (INR n + 1) + 1) < 2 * INR n + 2).
  { pose proof (ln_lt_pred (2 * (INR n + 1) + 1)). lra. }
  assert (H2 : 0 <= ln (2 * INR n + 1)).
  { rewrite <- ln_1. destruct (Req_dec (INR n) 0) as [->|Hne].
    - replace (2 * 0 + 1) with 1 by lra. lra.
    - left. apply ln_increasing; lra. }
  assert (H3 : (2 * (INR n + 1) + 1) ^ 2 / (8 * v)
               - (2 * INR n + 1) ^ 2 / (8 * v) = (INR n + 1) / v).
  { field. lra. }
  assert (H4 : 2 * (INR n + 1) <= (INR n + 1) / v).
  { unfold Rdiv. rewrite (Rmult_comm 2).
    apply Rmult_le_compat_l; [lra|].
    replace 2 with (/ (1 / 2)) by lra.
    apply Rinv_le_contravar; lra. }
  lra.
Qed.

Lemma log_prob_unfold (v : R) :
  log_prob v =
    ln ((exp (series_term v 0) + exp (series_term v 2) +
         exp (series_term v 4) + exp (series_term v 6)) -
        (exp (series_term v 1) + exp (series_term v 3) +
         exp (series_term v 5))) - 0.5 * ln (2 * PI).
Proof.
  unfold log_prob, num_log_prob_terms, index_select.
  cbn [seq List.map stride2 tl nth].
  rewrite !log_term_eq, !exp_logsumexp by discriminate.
  simpl. do 2 f_equal; lra.
Qed.

Lemma exp_series_decreasing (v : R) (n : nat) :
  0 < v <= 1 / 2 -> exp (series_term v (S n)) < exp (series_term v n).
Proof. intros Hv. apply exp_increasing, series_term_decreasing, Hv. Qed.

(** X21. For [0 < v <= 1/2] the series terms of [log_prob] decrease:
    the argument of the final logarithm lies between the difference of
    the first two terms, which is positive, and the first term, and
    [log_prob v] lies between the corresponding bounds. *)
Theorem log_prob_small_values (v : R) :
  0 < v <= 1 / 2 ->
  let a := fun n : nat => exp (series_term v n) in
  let density :=
    a 0%nat + a 2%nat + a 4%nat + a 6%nat - (a 1%nat + a 3%nat + a 5%nat) in
  log_prob v = ln density - 0.5 * ln (2 * PI) /\
  0 < a 0%nat - a 1%nat <= density /\
  density <= a 0%nat /\
  ln (a 0%nat - a 1%nat) - 0.5 * ln (2 * PI) <= log_prob v /\
  log_prob v <= series_term v 0 - 0.5 * ln (2 * PI).
Proof.
  intros Hv a density.
  pose proof (exp_series_decreasing v 0 Hv) as H0.
  pose proof (exp_series_decreasing v 1 Hv) as H1.
  pose proof (exp_series_decreasing v 2 Hv) as H2.
  pose proof (exp_series_decreasing v 3 Hv) as H3.
  pose proof (exp_series_decreasing v 4 Hv) as H4.
  pose proof (exp_series_decreasing v 5 Hv) as H5.
  pose proof (exp_pos (series_term v 6)) as H6.
  fold (a 0%nat) (a 1%nat) (a 2%nat) (a 3%nat) (a 4%nat) (a 5%nat)
       (a 6%nat) in *.
  assert (Hlow : 0 < a 0%nat - a 1%nat <= density) by (unfold density; lra).
  assert (Hup : density <= a 0%nat) by (unfold density; lra).
  assert (Heq : log_prob v = ln density - 0.5 * ln (2 * PI)).
  { rewrite log_prob_unfold. reflexivity. }
  repeat split; try lra.
  - rewrite Heq. apply Rplus_le_compat_r.
    destruct Hlow as [Hpos [Hlt|Heq']].
    + left. apply ln_increasing; assumption.
    + rewrite Heq'. lra.
  - rewrite Heq. apply Rplus_le_compat_r.
    rewrite <- (ln_exp (series_term v 0)). fold (a 0%nat).
    destruct Hup as [Hlt|Heq'].
    + left. apply ln_increasing; lra.
    + rewrite Heq'. lra.
Qed.

(** [exp (series_term v n)] is the [n]-th term of the density series
    without its sign. *)
Lemma exp_series_term (v : R) (n : nat) :
  exp (series_term v n) =
    exp (- 1.5 * ln v) *
    ((2 * INR n + 1) * exp (- (2 * INR n + 1) ^ 2 / (8 * v))).
Proof.
  unfold series_term.
  replace (ln (2 * INR n + 1) - 1.5 * ln v - (2 * INR n + 1) ^ 2 / (8 * v))
    with (- 1.5 * ln v +
          (ln (2 * INR n + 1) + - (2 * INR n + 1) ^ 2 / (8 * v)))
    by (unfold Rdiv; lra).
  rewrite !exp_plus, exp_ln; [reflexivity|].
  pose proof (pos_INR n). lra.
Qed.

(** X22. For [0 < v <= 1/2], [log_prob v] is the logarithm of the
    seven-term alternating series of [(2n+1) exp (-(2n+1)^2 / (8 v))],
    which is positive, minus [1.5 log v] and [0.5 log (2 pi)]. *)
Theorem log_prob_density_series (v : R) :
  0 < v <= 1 / 2 ->
  let e := fun k : R => exp (- k ^ 2 / (8 * v)) in
  let series :=
    1 * e 1 - 3 * e 3 + 5 * e 5 - 7 * e 7 + 9 * e 9 - 11 * e 11
    + 13 * e 13 in
  0 < series /\
  log_prob v = ln series - 1.5 * ln v - 0.5 * ln (2 * PI).
Proof.
  intros Hv e series.
  pose proof (exp_series_decreasing v 0 Hv) as H0.
  pose proof (exp_series_decreasing v 2 Hv) as H2.
  pose proof (exp_series_decreasing v 4 Hv) as H4.
  pose proof (exp_pos (series_term v 6)) as H6.
  pose proof (exp_pos (- 1.5 * ln v)) as Hc.
  assert (Hfac :
    exp (series_term v 0) + exp (series_term v 2) +
    exp (series_term v 4) + exp (series_term v 6) -
    (exp (series_term v 1) + exp (series_term v 3) +
     exp (series_term v 5)) = exp (- 1.5 * ln v) * series).
  { rewrite !exp_series_term. unfold series, e. simpl INR.
    replace (2 * 0 + 1) with 1 by lra.
    replace (2 * 1 + 1) with 3 by lra.
    replace (2 * (1 + 1) + 1) with 5 by lra.
    replace (2 * (1 + 1 + 1) + 1) with 7 by lra.
    replace (2 * (1 + 1 + 1 + 1) + 1) with 9 by lra.
    replace (2 * (1 + 1 + 1 + 1 + 1) + 1) with 11 by lra.
    replace (2 * (1 + 1 + 1 + 1 + 1 + 1) + 1) with 13 by lra.
    ring. }
  assert (Hpos : 0 < exp (- 1.5 * ln v) * series) by (rewrite <- Hfac; lra).
  assert (Hs : 0 < series).
  { apply (Rmult_lt_reg_l (exp (- 1.5 * ln v))); [assumption|]. lra. }
  split; [assumption|].
  rewrite log_prob_unfold, Hfac, ln_mult, ln_exp by assumption. lra.
Qed.
End TruncatedPolyaGammaMore.

(** ** The further properties on the one-entry host *)

Module MoreExamples.
Import SingletonHost SingletonStates.
Local Open Scope R_scope.

Lemma autoguide_normal_params_witness :
  ∃ self',
    autoguide "a" dist.Normal delta_a = (Ok (), self') ∧
    attrs self' !! "a_loc" = Some (NNParameter (ln 1)) ∧
    attrs self' !! "a_scale" = Some (PyroParam 1 constraints.positive).
Proof.
  destruct (autoguide_normal_params delta_a "a" LogNormal
              (PyroSample LogNormal) exp_transform)
    as (self' & Hrun & Hloc & Hscale & _);
    [reflexivity|reflexivity| |reflexivity|].
  - split; [apply NoDup_singleton|]. repeat constructor. by eexists.
  - exists self'. split; [exact Hrun|]. split; [exact Hloc|exact Hscale].
Defined.

Lemma autoguide_multivariate_normal_params_witness :
  ∃ self',
    autoguide "a" dist.MultivariateNormal delta_a = (Ok (), self') ∧
    attrs self' !! "a_scale_tril" =
      Some (PyroParam 1 constraints.lower_cholesky).
Proof.
  destruct (autoguide_multivariate_normal_params delta_a "a" LogNormal
              (PyroSample LogNormal) exp_transform 1%nat)
    as (self' & Hrun & _ & Htril & _);
    [reflexivity|reflexivity| |reflexivity|reflexivity|].
  - split; [apply NoDup_singleton|]. repeat constructor. by eexists.
  - exists self'. split; [exact Hrun|exact Htril].
Defined.

Lemma autoguide_missing_attribute_witness :
  autoguide "a" dist.Normal orphan_a = (Raise (AttributeError "a"), orphan_a).
Proof.
  exact (autoguide_missing_attribute orphan_a "a" LogNormal dist.Normal
           eq_refl I ltac:(set_solver) eq_refl).
Defined.

Lemma delta_z_attrs_present : guide_attrs_present delta_z "z".
Proof.
  split; [apply NoDup_singleton|]. repeat constructor. by eexists.
Qed.

Lemma autoguide_failure_leaves_stale_guide_witness :
  ∃ stale,
    autoguide "z" dist.Normal delta_z =
      (Raise (NotImplementedError "Cannot transform _Boolean constraints"),
       stale) ∧
    _guides stale !! "z" = Some (dist.Delta, ["map"]) ∧
    attrs stale !! "z_map" = None.
Proof.
  destruct (autoguide_failure_leaves_stale_guide delta_z "z" Bernoulli
              (PyroSample Bernoulli) dist.Delta ["map"]
              eq_refl eq_refl eq_refl delta_z_attrs_present)
    as (Hbij & _ & Hg & Hgone).
  eexists. split; [|split].
  - exact (Hbij dist.Normal (or_introl eq_refl) eq_refl).
  - exact Hg.
  - apply (Hgone "map"). by left.
Defined.

Lemma autoguide_stale_guide_blocks_witness :
  let stale := (autoguide "z" dist.Normal delta_z).2 in
  autoguide "z" dist.Delta stale = (Raise (AttributeError "z_map"), stale).
Proof.
  cbn zeta.
  destruct (autoguide_stale_guide_blocks
              (autoguide "z" dist.Normal delta_z).2 "z" dist.Delta "map" [])
    as [Hblock _]; [by eexists|reflexivity|reflexivity|].
  apply Hblock. by left.
Defined.


Lemma setattr_resets_guide_witness :
  ∃ self',
    __setattr__ "a" (PyroSample LogNormal) normal_a = (Ok (), self') ∧
    _guides self' !! "a" = Some (dist.Delta, ["map"]) ∧
    attrs self' !! "a_loc" = None ∧
    attrs self' !! "a_scale" = None.
Proof.
  eexists. split; [reflexivity|].
  destruct (setattr_resets_guide normal_a
              (__setattr__ "a" (PyroSample LogNormal) normal_a).2
              "a" LogNormal dist.Normal ["loc"; "scale"])
    as (_ & Hg & _ & Hgone); [reflexivity|reflexivity|].
  split; [exact Hg|]. split.
  - apply (Hgone "loc"); [by left|done].
  - apply (Hgone "scale"); [right; by left|done].
Defined.

Lemma split_last_component_witness :
  split_last "" "model.kernel.lengthscale" = "lengthscale".
Proof.
  refine (proj1 (split_last_component "model.kernel" "lengthscale" _)).
  cbn. repeat split; discriminate.
Defined.

Lemma get_guide_delta_point_mass_witness :
  _get_guide "a" "model.a" (MkRuntime delta_a []) =
    (Ok (dist.DeltaAt 1 None 1), MkRuntime delta_a []).
Proof.
  exact (get_guide_delta_point_mass "a" "model.a" (MkRuntime delta_a [])
           ["map"] (PyroParam 1 constraints.positive) eq_refl eq_refl).
Defined.

Lemma pyro_sample_guide_missing_witness :
  _pyro_sample "model.b" LogNormal (MkRuntime guide_a []) =
    (Raise (KeyError "b"), MkRuntime guide_a []).
Proof.
  exact (pyro_sample_guide_missing "model.b" LogNormal (MkRuntime guide_a [])
           eq_refl eq_refl eq_refl).
Defined.

Lemma setattr_then_guide_read_witness :
  ∃ v r',
    _pyro_sample "model.a" LogNormal (MkRuntime guide_a []) = (Ok v, r') ∧
    trace r' = [Site "model.a" (dist.DeltaAt 1 None 1) false].
Proof.
  destruct (setattr_then_guide_read __init__ delta_a "a" "model.a"
              LogNormal []) as (p_map & Hmap & Hrun);
    [reflexivity|reflexivity|reflexivity|].
  assert (Hp : Some p_map = Some (PyroParam 1 constraints.positive))
    by (rewrite <- Hmap; reflexivity).
  injection Hp as ->. cbn zeta in Hrun.
  eexists _, _. split; [exact Hrun|reflexivity].
Defined.

Lemma sample_positive_witness :
  0 < TruncatedPolyaGamma.sample [1; 1; 1; 1; 1; 1; 1; 1] <= 2.5.
Proof.
  apply TruncatedPolyaGammaMore.sample_positive; [discriminate|].
  repeat constructor; lra.
Defined.

Lemma sample_monotone_witness :
  TruncatedPolyaGamma.sample [1; 1; 1; 1; 1; 1; 1; 1] <=
  TruncatedPolyaGamma.sample [2; 1; 1; 1; 1; 1; 1; 3].
Proof.
  apply TruncatedPolyaGammaMore.sample_monotone.
  repeat constructor; lra.
Defined.

Lemma log_prob_small_values_witness :
  TruncatedPolyaGamma.log_prob (1 / 4) <=
  TruncatedPolyaGamma.series_term (1 / 4) 0 - 0.5 * ln (2 * PI).
Proof.
  destruct (TruncatedPolyaGammaMore.log_prob_small_values (1 / 4))
    as (_ & _ & _ & _ & Hup); [lra|exact Hup].
Defined.

Lemma log_prob_density_series_witness :
  let e := fun k : R => exp (- k ^ 2 / (8 * (1 / 4))) in
  0 < 1 * e 1 - 3 * e 3 + 5 * e 5 - 7 * e 7 + 9 * e 9 - 11 * e 11
      + 13 * e 13.
Proof.
  destruct (TruncatedPolyaGammaMore.log_prob_density_series (1 / 4))
    as [Hpos _]; [lra|exact Hpos].
Defined.
Lemma get_guide_missing_witness :
  _get_guide "b" "model.b" (MkRuntime delta_a []) =
    (Raise (KeyError "b"), MkRuntime delta_a []).
Proof.
  destruct (get_guide_missing "b" "model.b" (MkRuntime delta_a []))
    as (Hkey & _).
  exact (Hkey eq_refl).
Defined.
End MoreExamples.
